(** * protorpc/webapp_test_util.py: the request-serving thread controller,
      the transport wrapper and the end-to-end test service.

    The file embeds three parts of [webapp_test_util.py]:

    - [ServerThread]: the thread that owns the WSGI server loop.  Its fields
      are guarded by one [threading.Condition]; every public method and
      [run] itself go through the [__lock] decorator.  The threads are
      modelled by control points and a [step] function that a schedule
      (a list of thread identifiers) drives.
    - [ServerTransportWrapper]: the wrapper that notifies the server thread
      before each [send_rpc].
    - [TestService]: the remote methods used by the end-to-end tests. *)

From Stdlib Require Import ZArith Bool String Ascii.
From stdpp Require Import base tactics option list gmap strings.

Open Scope Z_scope.

(** ** Thread identifiers *)

Inductive tid : Type :=
| TServer
| TClient (i : nat).

#[global] Instance tid_eq_dec : EqDecision tid.
Proof. solve_decision. Defined.

(** ** threading.Condition

    A condition owns a lock and a FIFO queue of waiters.  [owner] is the
    thread holding the lock; a thread sits in [waiters] from the moment it
    calls [wait] until a [notify] or [notifyAll] removes it, after which it
    still has to take the lock again before [wait] returns.

    [threading.Condition()] builds its lock with [RLock()]: the thread that
    owns the lock can acquire it again, and only the release that matches
    its first acquisition frees the lock. *)

Record Condition : Type := mkCondition {
  owner : option tid;
  waiters : list tid
}.

(** [acquire] by a thread that does not own the lock.  Every control point
    at which [step] acquires is one where the thread does not own it. *)
Definition cond_acquire (t : tid) (c : Condition) : option Condition :=
  match owner c with
  | None => Some (mkCondition (Some t) (waiters c))
  | Some _ => None
  end.

(** [acquire] by any thread: the owner goes through, another thread waits
    for the lock to be free.  The flag tells whether this acquisition is
    the outermost one of [t]. *)
Definition cond_enter (t : tid) (c : Condition) : option (Condition * bool) :=
  match owner c with
  | None => Some (mkCondition (Some t) (waiters c), true)
  | Some u => if decide (u = t) then Some (c, false) else None
  end.

Definition cond_release (c : Condition) : Condition :=
  mkCondition None (waiters c).

(** The [release] that matches an acquisition by [cond_enter]. *)
Definition cond_leave (outermost : bool) (c : Condition) : Condition :=
  if outermost then cond_release c else c.

Definition cond_wait (t : tid) (c : Condition) : Condition :=
  mkCondition None (waiters c ++ [t]).

Definition cond_notify (c : Condition) : Condition :=
  mkCondition (owner c) (tail (waiters c)).

Definition cond_notifyAll (c : Condition) : Condition :=
  mkCondition (owner c) [].

(** [wait] returns to [t] once [t] has been notified and the lock is free. *)
Definition cond_wake (t : tid) (c : Condition) : option Condition :=
  if bool_decide (t ∈ waiters c) then None else cond_acquire t c.

(** ** The fields of ServerThread (set in [__init__]) *)

Record ServerThread : Type := mkServerThread {
  server : bool;            (* [self.server] is not [None] *)
  condition : Condition;    (* [self.__condition] *)
  serving : bool;           (* [self.__serving] *)
  started : bool;           (* [self.__started] *)
  requests : Z              (* [self.__requests] *)
}.

Definition ServerThread_init : ServerThread :=
  mkServerThread true (mkCondition None []) true false 0.

Definition set_condition (c : Condition) (st : ServerThread) : ServerThread :=
  mkServerThread (server st) c (serving st) (started st) (requests st).
Definition set_serving (b : bool) (st : ServerThread) : ServerThread :=
  mkServerThread (server st) (condition st) b (started st) (requests st).
Definition set_started (b : bool) (st : ServerThread) : ServerThread :=
  mkServerThread (server st) (condition st) (serving st) b (requests st).
Definition set_requests (n : Z) (st : ServerThread) : ServerThread :=
  mkServerThread (server st) (condition st) (serving st) (started st) n.
Definition set_server (b : bool) (st : ServerThread) : ServerThread :=
  mkServerThread b (condition st) (serving st) (started st) (requests st).

Definition on_condition (f : Condition -> Condition) (st : ServerThread)
  : ServerThread :=
  set_condition (f (condition st)) st.

(** ** Method bodies, as run inside the critical section *)

(** [shutdown]: [self.__serving = False; self.__condition.notify()]. *)
Definition shutdown_body (st : ServerThread) : ServerThread :=
  on_condition cond_notify (set_serving false st).

(** [handle_request]:
    [self.__requests += request_count; self.__condition.notify()]. *)
Definition handle_request_body (request_count : Z) (st : ServerThread)
  : ServerThread :=
  on_condition cond_notify (set_requests (requests st + request_count) st).

(** The [__lock] decorator around a body that does not wait:
    acquire, run the body, release.  [None] when another thread holds the
    lock (the caller blocks in [acquire]); a caller that holds the lock
    itself runs the body and still holds the lock afterwards. *)
Definition locked (t : tid) (body : ServerThread -> ServerThread)
    (st : ServerThread) : option ServerThread :=
  '(c, outermost) ← cond_enter t (condition st);
  Some (on_condition (cond_leave outermost) (body (set_condition c st))).

(** [t] gets through [acquire]: the lock is free or [t] holds it. *)
Definition lock_open (t : tid) (st : ServerThread) : Prop :=
  owner (condition st) = None \/ owner (condition st) = Some t.

#[global] Instance lock_open_dec t st : Decision (lock_open t st).
Proof. unfold lock_open. apply _. Defined.

Definition shutdown (t : tid) : ServerThread -> option ServerThread :=
  locked t shutdown_body.

Definition handle_request (t : tid) (request_count : Z)
  : ServerThread -> option ServerThread :=
  locked t (handle_request_body request_count).

(** ** Control points of the server thread ([run] under [__lock]) *)

Inductive run_point : Type :=
| RNew        (* constructed, [start()] not called yet *)
| RAcquire    (* [wrapper]: about to [self.__condition.acquire()] *)
| RBegin      (* lock held: [self.__started = True; notifyAll()] *)
| RLoop       (* lock held: at the test of [while self.__serving] *)
| RWait       (* inside [self.__condition.wait()] *)
| RServe      (* lock held: inside [self.server.handle_request()] *)
| RDecr       (* lock held: [self.__requests -= 1] *)
| RExit       (* lock held: [self.server = None] *)
| RRelease    (* [wrapper]: the [finally] clause, about to release *)
| RDone.

#[global] Instance run_point_eq_dec : EqDecision run_point.
Proof. solve_decision. Defined.

(** ** Calls made by the other threads

    [Start] is [threading.Thread.start]; [Connect] stands for a client that
    opens one connection to the listening socket ([urllib2.urlopen] in
    [DoRawRequest], the transport's send otherwise). *)

Inductive call : Type :=
| Shutdown
| HandleRequest (request_count : Z)
| WaitUntilRunning
| Start
| Connect.

Inductive call_point : Type :=
| CReady                (* between two calls *)
| CBody (c : call)      (* lock held, body of [c] not run yet *)
| CWaiting              (* inside [wait()] of [wait_until_running] *)
| CRelease              (* [wrapper]: about to release *)
| CFailed.              (* an exception ended the thread *)

Record Client : Type := mkClient {
  pc : call_point;
  todo : list call      (* calls still to make, after the current one *)
}.

(** ** The whole system *)

Record World : Type := mkWorld {
  thread : ServerThread;
  run_pc : run_point;
  clients : list Client;
  incoming : nat;      (* connections queued at the listening socket *)
  served : nat         (* completed calls of [server.handle_request] *)
}.

Definition set_thread (st : ServerThread) (w : World) : World :=
  mkWorld st (run_pc w) (clients w) (incoming w) (served w).
Definition set_run_pc (p : run_point) (w : World) : World :=
  mkWorld (thread w) p (clients w) (incoming w) (served w).
Definition set_client (i : nat) (c : Client) (w : World) : World :=
  mkWorld (thread w) (run_pc w) (<[i := c]> (clients w)) (incoming w) (served w).

Definition init (progs : list (list call)) (pending : nat) : World :=
  mkWorld ServerThread_init RNew (mkClient CReady <$> progs) pending 0.

(** *** One step of [run] *)

Definition run_step (w : World) : option World :=
  let st := thread w in
  match run_pc w with
  | RNew => None
  | RAcquire =>
      c ← cond_acquire TServer (condition st);
      Some (set_run_pc RBegin (set_thread (set_condition c st) w))
  | RBegin =>
      Some (set_run_pc RLoop
              (set_thread (on_condition cond_notifyAll (set_started true st)) w))
  | RLoop =>
      if serving st then
        if requests st =? 0 then
          Some (set_run_pc RWait
                  (set_thread (on_condition (cond_wait TServer) st) w))
        else Some (set_run_pc RServe w)
      else Some (set_run_pc RExit w)
  | RWait =>
      c ← cond_wake TServer (condition st);
      Some (set_run_pc RLoop (set_thread (set_condition c st) w))
  | RServe =>
      match incoming w with
      | O => None
      | S k => Some (mkWorld st RDecr (clients w) k (S (served w)))
      end
  | RDecr =>
      Some (set_run_pc RLoop (set_thread (set_requests (requests st - 1) st) w))
  | RExit =>
      Some (set_run_pc RRelease (set_thread (set_server false st) w))
  | RRelease =>
      Some (set_run_pc RDone (set_thread (on_condition cond_release st) w))
  | RDone => None
  end.

(** *** One step of client [i] *)

Definition call_body (i : nat) (c : call) (rest : list call) (w : World)
  : option World :=
  let st := thread w in
  match c with
  | Shutdown =>
      Some (set_client i (mkClient CRelease rest)
              (set_thread (shutdown_body st) w))
  | HandleRequest n =>
      Some (set_client i (mkClient CRelease rest)
              (set_thread (handle_request_body n st) w))
  | WaitUntilRunning =>
      if started st then Some (set_client i (mkClient CRelease rest) w)
      else Some (set_client i (mkClient CWaiting rest)
                   (set_thread (on_condition (cond_wait (TClient i)) st) w))
  | Start | Connect => None
  end.

Definition client_step (i : nat) (w : World) : option World :=
  let st := thread w in
  cl ← clients w !! i;
  match pc cl with
  | CReady =>
      match todo cl with
      | [] => None
      | Start :: rest =>
          match run_pc w with
          | RNew => Some (set_client i (mkClient CReady rest) (set_run_pc RAcquire w))
          | _ => Some (set_client i (mkClient CFailed rest) w)
          end
      | Connect :: rest =>
          Some (mkWorld st (run_pc w) (<[i := mkClient CReady rest]> (clients w))
                  (S (incoming w)) (served w))
      | c :: rest =>
          k ← cond_acquire (TClient i) (condition st);
          Some (set_client i (mkClient (CBody c) rest)
                  (set_thread (set_condition k st) w))
      end
  | CBody c => call_body i c (todo cl) w
  | CWaiting =>
      k ← cond_wake (TClient i) (condition st);
      Some (set_client i (mkClient (CBody WaitUntilRunning) (todo cl))
              (set_thread (set_condition k st) w))
  | CRelease =>
      Some (set_client i (mkClient CReady (todo cl))
              (set_thread (on_condition cond_release st) w))
  | CFailed => None
  end.

Definition step (t : tid) (w : World) : option World :=
  match t with
  | TServer => run_step w
  | TClient i => client_step i w
  end.

(** A schedule names the thread that moves at each step; it is accepted
    only if every named thread can move. *)
Fixpoint run_schedule (sch : list tid) (w : World) : option World :=
  match sch with
  | [] => Some w
  | t :: sch' => w' ← step t w; run_schedule sch' w'
  end.

Definition threads (w : World) : list tid :=
  TServer :: (TClient <$> seq 0 (length (clients w))).

Definition successors (w : World) : list World :=
  omap (fun t => step t w) (threads w).

(** No thread can move. *)
Definition quiescent (w : World) : Prop := forall t, step t w = None.

Definition reachable_from (w0 w : World) : Prop :=
  exists sch, run_schedule sch w0 = Some w.

Definition reachable (w : World) : Prop :=
  exists progs pending, reachable_from (init progs pending) w.

(** ** Exploring every schedule

    [all_runs fuel I P w] checks that every run from [w] stops within [fuel]
    steps, that [I] holds in every state on the way and that [P] holds in
    the state where it stops. *)

Fixpoint all_runs (fuel : nat) (I P : World -> bool) (w : World) : bool :=
  I w &&
  match successors w with
  | [] => P w
  | ws =>
      match fuel with
      | O => false
      | S fuel' => forallb (all_runs fuel' I P) ws
      end
  end.

(** Client [i] has returned from all its calls. *)
Definition returned (i : nat) (w : World) : bool :=
  match clients w !! i with
  | Some (mkClient CReady []) => true
  | _ => false
  end.

(** Client [i] is still inside (or in front of) [wait_until_running]. *)
Definition stuck_in_wait_until_running (i : nat) (w : World) : bool :=
  match clients w !! i with
  | Some (mkClient CReady (WaitUntilRunning :: _)) => true
  | Some (mkClient CWaiting _) => true
  | _ => false
  end.

Definition run_point_eqb (p q : run_point) : bool := bool_decide (p = q).

(** The server thread holds the lock at these control points. *)
Definition run_holds (p : run_point) : bool :=
  match p with
  | RBegin | RLoop | RServe | RDecr | RExit | RRelease => true
  | RNew | RAcquire | RWait | RDone => false
  end.

(** A client holds the lock at these control points. *)
Definition call_holds (p : call_point) : bool :=
  match p with
  | CBody _ | CRelease => true
  | CReady | CWaiting | CFailed => false
  end.

(** Upper bound on the steps [run] still takes once [__serving] is false. *)
Definition exit_distance (p : run_point) : nat :=
  match p with
  | RNew => 6
  | RAcquire => 5
  | RBegin | RWait => 4
  | RLoop => 3
  | RExit => 2
  | RRelease => 1
  | RDone => 0
  | RServe => 5
  | RDecr => 4
  end.

Definition call_nonneg (c : call) : Prop :=
  match c with
  | HandleRequest n => 0 <= n
  | _ => True
  end.

Definition point_nonneg (p : call_point) : Prop :=
  match p with
  | CBody c => call_nonneg c
  | _ => True
  end.

(** Every [handle_request] call still to come passes a count [>= 0]. *)
Definition grants_nonneg (w : World) : Prop :=
  Forall (fun cl => point_nonneg (pc cl) /\ Forall call_nonneg (todo cl))
         (clients w).

(** The fields and the loop position that [run] reads: what the spec calls
    the server-thread state. *)
Record LoopView : Type := mkLoopView {
  v_serving : bool;
  v_started : bool;
  v_requests : Z;
  v_server : bool;
  v_owner : option tid;
  v_notified : bool;      (* the server thread is not queued in [waiters] *)
  v_run_pc : run_point
}.

Definition loop_view (w : World) : LoopView :=
  let st := thread w in
  mkLoopView (serving st) (started st) (requests st) (server st)
    (owner (condition st))
    (negb (bool_decide (TServer ∈ waiters (condition st))))
    (run_pc w).

(** ** Results of Python calls: a value or a raised exception *)

Inductive exn : Type :=
| NameError (name : string)
| AttributeError (attr : string)
| TypeError (msg : string)
| NotImplementedError (msg : string)
| NetworkError (msg : string)
| ApplicationError (message : string) (error_name : string).

Inductive outcome (A : Type) : Type :=
| Return (a : A)
| Raise (e : exn).
Arguments Return {A} a.
Arguments Raise {A} e.

#[global] Instance outcome_ret : MRet outcome := fun A a => Return a.
#[global] Instance outcome_bind : MBind outcome := fun A B f m =>
  match m with
  | Return a => f a
  | Raise e => Raise e
  end.

(** ** Messages of [test_util] *)

(** Modelled from the spec: [test_util.OptionalMessage] is not part of the
    source tree; the spec describes it as a message with an optional field
    [string_value].  Its remaining fields are carried along untouched. *)
Record OptionalMessage : Type := mkOptionalMessage {
  string_value : option string;
  other_fields : list (string * string)
}.

(** [OptionalMessage(string_value=s)]: every other field unset. *)
Definition OptionalMessage_new (s : string) : OptionalMessage :=
  mkOptionalMessage (Some s) [].

(** Python truth value of an optional string: [None] and [''] are false. *)
Definition truthy (v : option string) : bool :=
  match v with
  | None => false
  | Some s => negb (String.eqb s "")
  end.

(** ['+%s' % s] for a string [s]. *)
Definition plus_format (s : string) : string := "+" ++ s.

(** ** TestService *)

Record TestService : Type := mkTestService {
  message : string       (* [self.__message] *)
}.

(** [__init__(self, message='uninitialized')]. *)
Definition TestService_init (arg : option string) : TestService :=
  mkTestService (default "uninitialized"%string arg).

Definition optional_message (self : TestService) (request : OptionalMessage)
  : outcome OptionalMessage :=
  if truthy (string_value request) then
    Return (mkOptionalMessage
              (plus_format <$> string_value request) (other_fields request))
  else Return request.

Definition init_parameter {Req : Type} (self : TestService) (request : Req)
  : outcome OptionalMessage :=
  Return (OptionalMessage_new (message self)).

Definition raise_application_error {Req Resp : Type} (self : TestService)
    (request : Req) : outcome Resp :=
  Raise (ApplicationError "This is an application error" "ERROR_NAME").

Definition raise_unexpected_error {Req Resp : Type} (self : TestService)
    (request : Req) : outcome Resp :=
  Raise (TypeError "Unexpected error").

(** *** Name resolution inside a method body

    A name is looked up in the function's locals, then in the module's
    globals, then in the builtins; a name found in none raises
    [NameError]. *)

Definition module_globals : list string :=
  [ "__name__"; "__doc__"; "__file__"; "__package__"; "__builtins__";
    "__author__"; "cStringIO"; "threading"; "unittest"; "urllib2";
    "simple_server"; "validate"; "protojson"; "remote"; "test_util";
    "transport"; "service_handlers"; "webapp"; "testbed"; "TestService";
    "GetDefaultEnvironment"; "RequestHandlerTestBase"; "ServerThread";
    "ServerTransportWrapper"; "AlternateService"; "WebServerTestBase";
    "EndToEndTestBase" ]%string.

Definition builtins : list string :=
  [ "abs"; "all"; "any"; "apply"; "basestring"; "bin"; "bool"; "buffer";
    "bytearray"; "bytes"; "callable"; "chr"; "classmethod"; "cmp"; "coerce";
    "compile"; "complex"; "copyright"; "credits"; "delattr"; "dict"; "dir";
    "divmod"; "enumerate"; "eval"; "execfile"; "exit"; "file"; "filter";
    "float"; "format"; "frozenset"; "getattr"; "globals"; "hasattr"; "hash";
    "help"; "hex"; "id"; "input"; "int"; "intern"; "isinstance";
    "issubclass"; "iter"; "len"; "license"; "list"; "locals"; "long"; "map";
    "max"; "memoryview"; "min"; "next"; "object"; "oct"; "open"; "ord";
    "pow"; "print"; "property"; "quit"; "range"; "raw_input"; "reduce";
    "reload"; "repr"; "reversed"; "round"; "set"; "setattr"; "slice";
    "sorted"; "staticmethod"; "str"; "sum"; "super"; "tuple"; "type";
    "unichr"; "unicode"; "vars"; "xrange"; "zip"; "__import__"; "True";
    "False"; "None"; "Ellipsis"; "NotImplemented"; "__debug__";
    "ArithmeticError"; "AssertionError"; "AttributeError"; "BaseException";
    "BufferError"; "BytesWarning"; "DeprecationWarning"; "EOFError";
    "EnvironmentError"; "Exception"; "FloatingPointError"; "FutureWarning";
    "GeneratorExit"; "IOError"; "ImportError"; "ImportWarning";
    "IndentationError"; "IndexError"; "KeyError"; "KeyboardInterrupt";
    "LookupError"; "MemoryError"; "NameError"; "NotImplementedError";
    "OSError"; "OverflowError"; "PendingDeprecationWarning";
    "ReferenceError"; "RuntimeError"; "RuntimeWarning"; "StandardError";
    "StopIteration"; "SyntaxError"; "SyntaxWarning"; "SystemError";
    "SystemExit"; "TabError"; "TypeError"; "UnboundLocalError";
    "UnicodeDecodeError"; "UnicodeEncodeError"; "UnicodeError";
    "UnicodeTranslateError"; "UnicodeWarning"; "UserWarning"; "ValueError";
    "Warning"; "ZeroDivisionError" ]%string.

Definition in_names (name : string) (names : list string) : bool :=
  existsb (String.eqb name) names.

Inductive binding (Obj : Type) : Type :=
| Local (o : Obj)
| Global (name : string).
Arguments Local {Obj} o.
Arguments Global {Obj} name.

Definition load_name {Obj : Type} (locals : list (string * Obj))
    (name : string) : outcome (binding Obj) :=
  match snd <$> find (fun b => String.eqb (fst b) name) locals with
  | Some o => Return (Local o)
  | None =>
      if in_names name module_globals || in_names name builtins
      then Return (Global name)
      else Raise (NameError name)
  end.

Section NestedMessage.
(** [test_util.NestedMessage] is not part of the source tree: its type and
    its attribute access are parameters. *)
Variable NestedMessage : Type.
Variable get_string_value : binding (TestService + NestedMessage) -> outcome string.
Variable set_string_value : NestedMessage -> string -> outcome NestedMessage.

(** [request.string_value = '+%s' % requset.string_value; return request]:
    the right-hand side is evaluated first. *)
Definition nested_message (self : TestService) (request : NestedMessage)
  : outcome NestedMessage :=
  let locals := [("self"%string, inl self); ("request"%string, inr request)] in
  obj ← load_name locals "requset";
  s ← get_string_value obj;
  set_string_value request (plus_format s).
End NestedMessage.

(** *** Service mapping *)

(** Modelled from the spec: [remote.Service.new_factory] is not part of the
    source tree; the spec describes it as a factory that captures the
    constructor arguments, so that each registration builds its own
    instance with them. *)
Definition new_factory (arg : string) : unit -> TestService :=
  fun _ => TestService_init (Some arg).

(** Registering the class itself calls the constructor without arguments. *)
Definition TestService_class : unit -> TestService :=
  fun _ => TestService_init None.

Definition DEFAULT_MAPPING : list (string * (unit -> TestService)) :=
  [ ("/my/service"%string, TestService_class);
    ("/my/other_service"%string, new_factory "initialized") ].

Definition service_at (path : string) : option TestService :=
  (fun entry => snd entry tt) <$>
    find (fun entry => String.eqb (fst entry) path) DEFAULT_MAPPING.

(** *** Dispatch and stub *)

Inductive wire_response (Resp : Type) : Type :=
| WireOk (r : Resp)
| WireApplicationError (message : string) (error_name : string)
| WireUnexpectedError
| WireBadResponse.
Arguments WireOk {Resp} r.
Arguments WireApplicationError {Resp} message error_name.
Arguments WireUnexpectedError {Resp}.
Arguments WireBadResponse {Resp}.

(** Modelled from the spec: the dispatcher ([service_handlers], not part of
    the source tree), steps 3 to 7 of section 4.2: invoke the handler; an
    application error becomes an error response carrying its message and
    symbolic name; any other exception becomes an opaque unexpected error; a
    returned value that does not match the response type is a bad
    response. *)
Definition dispatch {Req Resp : Type} (handler : Req -> outcome Resp)
    (valid : Resp -> bool) (request : Req) : wire_response Resp :=
  match handler request with
  | Return r => if valid r then WireOk r else WireBadResponse
  | Raise (ApplicationError m n) => WireApplicationError m n
  | Raise _ => WireUnexpectedError
  end.

Inductive client_result (Resp : Type) : Type :=
| ClientResponse (r : Resp)
| ClientApplicationError (message : string) (error_name : string)
| ClientUnexpectedError
| ClientBadResponse.
Arguments ClientResponse {Resp} r.
Arguments ClientApplicationError {Resp} message error_name.
Arguments ClientUnexpectedError {Resp}.
Arguments ClientBadResponse {Resp}.

(** Modelled from the spec: the stub (section 4.5) returns the decoded
    response or re-raises the classified error it received. *)
Definition stub_call {Req Resp : Type} (handler : Req -> outcome Resp)
    (valid : Resp -> bool) (request : Req) : client_result Resp :=
  match dispatch handler valid request with
  | WireOk r => ClientResponse r
  | WireApplicationError m n => ClientApplicationError m n
  | WireUnexpectedError => ClientUnexpectedError
  | WireBadResponse => ClientBadResponse
  end.

(** ** ServerTransportWrapper *)

Section Wrapper.
(** The argument list of [send_rpc], its result, and the state the real
    transport works on besides the server thread (sockets, the network). *)
Variables Args Result Net : Type.

Record Sys : Type := mkSys {
  sys_thread : ServerThread;
  sys_net : Net
}.

(** A call either blocks (on the lock of the server thread) or finishes
    with a value or an exception and a new state. *)
Inductive effect (A : Type) : Type :=
| Blocked
| Done (o : outcome A) (s : Sys).
Arguments Blocked {A}.
Arguments Done {A} o s.

Definition action (A : Type) : Type := Sys -> effect A.

Definition then_ {A B : Type} (m : action A) (k : A -> action B) : action B :=
  fun s =>
    match m s with
    | Blocked => Blocked
    | Done (Return a) s' => k a s'
    | Done (Raise e) s' => Done (Raise e) s'
    end.

(** A bound method [send_rpc] stored in an attribute; it is given the
    thread that calls it and the argument list. *)
Definition send_method : Type := tid -> Args -> action Result.

Record Transport (StartRpc : Type) : Type := mkTransport {
  send_rpc_attr : send_method;     (* [transport.send_rpc] *)
  start_rpc_attr : StartRpc        (* [transport._start_rpc] *)
}.
Arguments mkTransport {StartRpc}.
Arguments send_rpc_attr {StartRpc}.
Arguments start_rpc_attr {StartRpc}.

(** [self.server_thread] is the ServerThread kept in [sys_thread]. *)
Record ServerTransportWrapper (StartRpc : Type) : Type := mkWrapper {
  transport : Transport StartRpc;
  original_send_rpc : send_method;
  _start_rpc : StartRpc
}.
Arguments mkWrapper {StartRpc}.
Arguments transport {StartRpc}.
Arguments original_send_rpc {StartRpc}.
Arguments _start_rpc {StartRpc}.

(** [self.server_thread.handle_request()], with the default count 1. *)
Definition notify_server_thread (caller : tid) : action unit :=
  fun s =>
    match handle_request caller 1 (sys_thread s) with
    | None => Blocked
    | Some st => Done (Return tt) (mkSys st (sys_net s))
    end.

(** [send_rpc] of a wrapper whose [original_send_rpc] is [original]. *)
Definition wrapper_send_rpc (original : send_method) : send_method :=
  fun caller args =>
    then_ (notify_server_thread caller) (fun _ => original caller args).

Definition send_rpc {StartRpc : Type} (self : ServerTransportWrapper StartRpc)
  : send_method :=
  wrapper_send_rpc (original_send_rpc self).

(** [__init__]: keeps the transport's own [send_rpc], stores the wrapper's
    [send_rpc] in its place and copies [_start_rpc]. *)
Definition ServerTransportWrapper_init {StartRpc : Type}
    (tr : Transport StartRpc) : ServerTransportWrapper StartRpc :=
  let original := send_rpc_attr tr in
  let patched := mkTransport (wrapper_send_rpc original) (start_rpc_attr tr) in
  mkWrapper patched original (start_rpc_attr tr).
End Wrapper.

Arguments Blocked {Net A}.
Arguments Done {Net A} o s.
Arguments mkSys {Net} sys_thread sys_net.
Arguments sys_thread {Net} s.
Arguments sys_net {Net} s.
Arguments then_ {Net A B} m k s.
Arguments mkTransport {Args Result Net StartRpc}.
Arguments send_rpc_attr {Args Result Net StartRpc}.
Arguments start_rpc_attr {Args Result Net StartRpc}.
Arguments mkWrapper {Args Result Net StartRpc}.
Arguments transport {Args Result Net StartRpc}.
Arguments original_send_rpc {Args Result Net StartRpc}.
Arguments _start_rpc {Args Result Net StartRpc}.
Arguments notify_server_thread {Net} caller s.
Arguments wrapper_send_rpc {Args Result Net} original caller args s.
Arguments send_rpc {Args Result Net StartRpc} self caller args s.
Arguments ServerTransportWrapper_init {Args Result Net StartRpc} tr.

(** ** The invariant of the controller *)

(** [run] has not set [__started] yet at these control points. *)
Definition run_before_started (p : run_point) : bool :=
  match p with
  | RNew | RAcquire | RBegin => true
  | _ => false
  end.

Definition lock_of (w : World) : option tid := owner (condition (thread w)).
Definition queue_of (w : World) : list tid := waiters (condition (thread w)).

Record Inv (w : World) : Prop := mkInv {
  (* the lock and the control points agree *)
  inv_run_lock : run_holds (run_pc w) = true <-> lock_of w = Some TServer;
  inv_call_lock : forall i cl, clients w !! i = Some cl ->
    (call_holds (pc cl) = true <-> lock_of w = Some (TClient i));
  inv_owner : forall i, lock_of w = Some (TClient i) -> is_Some (clients w !! i);
  inv_body : forall i cl c, clients w !! i = Some cl -> pc cl = CBody c ->
    c <> Start /\ c <> Connect;
  (* who can sit in the queue of the condition *)
  inv_queue_server : TServer ∈ queue_of w ->
    run_pc w = RWait /\ queue_of w = [TServer];
  inv_queue_clients : started (thread w) = true ->
    forall i, TClient i ∉ queue_of w;
  inv_started : started (thread w) = false ->
    run_before_started (run_pc w) = true;
  (* after shutdown *)
  inv_down : serving (thread w) = false ->
    run_pc w <> RServe /\ run_pc w <> RDecr /\ TServer ∉ queue_of w;
  (* a request is only being handled on a non-zero count *)
  inv_serve : run_pc w = RServe \/ run_pc w = RDecr ->
    requests (thread w) <> 0
}.

(** Two worlds that [run] cannot tell apart. *)
Definition same_loop (w1 w2 : World) : Prop :=
  loop_view w1 = loop_view w2
  /\ incoming w1 = incoming w2 /\ served w1 = served w2.

(** [n] consecutive steps of the server thread. *)
Fixpoint run_steps (n : nat) (w : World) : option World :=
  match n with
  | O => Some w
  | S n' => w' ← run_step w; run_steps n' w'
  end.

(** How often [run] comes back from [wait()] along a schedule. *)
Fixpoint wakes (sch : list tid) (w : World) : nat :=
  match sch with
  | [] => O
  | t :: sch' =>
      match step t w with
      | None => O
      | Some w' =>
          ((if bool_decide (t = TServer /\ run_pc w = RWait) then 1 else 0)
           + wakes sch' w')%nat
      end
  end.

(** ** Example runs *)

(** One driver thread: start the server, wait for it, grant twice. *)
Definition two_grants : list (list call) :=
  [[Start; WaitUntilRunning; HandleRequest 1; HandleRequest 1]].

(** [start()], [run] up to its first [wait()], a whole
    [wait_until_running()], a whole [handle_request(1)]. *)
Definition until_first_grant : list tid :=
  [TClient 0; TServer; TServer; TServer;
   TClient 0; TClient 0; TClient 0;
   TClient 0; TClient 0; TClient 0].

(** The state after [until_first_grant]: [run] is still inside [wait()],
    one permit is pending, the lock is free. *)
Definition after_first_grant : World :=
  mkWorld (mkServerThread true (mkCondition None []) true true 1)
    RWait [mkClient CReady [HandleRequest 1]] 0 0.

(** One driver thread: start, wait, grant one permit, shut down. *)
Definition grant_then_shutdown : list (list call) :=
  [[Start; WaitUntilRunning; HandleRequest 1; Shutdown]].

(** [until_first_grant] followed by a whole [shutdown()]. *)
Definition until_shutdown : list tid :=
  until_first_grant ++ [TClient 0; TClient 0; TClient 0].

(** The state after [until_shutdown]: [shutdown] has returned, the permit is
    still there, [run] has not come back from [wait()] yet. *)
Definition after_shutdown : World :=
  mkWorld (mkServerThread true (mkCondition None []) false true 1)
    RWait [mkClient CReady []] 0 0.

(** The state after [run] has left: [self.server] is [None]. *)
Definition after_exit : World :=
  mkWorld (mkServerThread false (mkCondition None []) false true 1)
    RDone [mkClient CReady []] 0 0.

(** The scenario of a permit granted before the thread is started. *)
Definition permit_before_start : list call :=
  [HandleRequest 1; Start; WaitUntilRunning].

(** The driver acquires the lock first and waits; [run] then takes the
    permit and enters [server.handle_request]. *)
Definition driver_waits_first : list tid :=
  [TClient 0; TClient 0; TClient 0; TClient 0;
   TClient 0; TClient 0; TServer; TServer; TServer].

(** What is checked in every state and in every final state of the
    scenario when the connection comes from another thread. *)
Definition served_before_return (w : World) : bool :=
  (served w <=? 1)%nat && implb (returned 0 w) (served w =? 1)%nat.

Definition served_once_and_idle (w : World) : bool :=
  returned 0 w && (served w =? 1)%nat && run_point_eqb (run_pc w) RWait
  && (requests (thread w) =? 0) && bool_decide (lock_of w = None).

(** What is checked in every final state when nobody else connects. *)
Definition blocked_in_serve (w : World) : bool :=
  stuck_in_wait_until_running 0 w && (served w =? 0)%nat
  && run_point_eqb (run_pc w) RServe && (requests (thread w) =? 1)
  && bool_decide (lock_of w = Some TServer).

(** A send through the wrapper, as the calls it makes on the server
    thread and on the socket: [handle_request()], then the original send,
    which opens the connection. *)
Definition wrapped_send : list call := [HandleRequest 1; Connect].

(** One driver thread: start, wait, grant one permit by hand, then send
    through the wrapper. *)
Definition grant_then_wrapped_send : list (list call) :=
  [[Start; WaitUntilRunning; HandleRequest 1] ++ wrapped_send].

(** The same driver sending through the transport as it was. *)
Definition grant_then_original_send : list (list call) :=
  [[Start; WaitUntilRunning; HandleRequest 1; Connect]].

(** Two grants of 1, or one grant of 2, each followed by the two
    connections. *)
Definition two_grants_two_sends : list (list call) :=
  [[Start; WaitUntilRunning; HandleRequest 1; HandleRequest 1;
    Connect; Connect]].

Definition one_grant_two_sends : list (list call) :=
  [[Start; WaitUntilRunning; HandleRequest 2; Connect; Connect]].

(** [until_first_grant], then [run] comes back from [wait()] and enters
    [server.handle_request]. *)
Definition until_serving : list tid := until_first_grant ++ [TServer; TServer].

(** The state after [until_serving]: [run] holds the lock inside
    [server.handle_request], no connection is queued, the driver has
    [rest] still to do. *)
Definition serving_without_connection (rest : list call) : World :=
  mkWorld (mkServerThread true (mkCondition (Some TServer) []) true true 1)
    RServe [mkClient CReady rest] 0 0.

(** What is checked in every final state after one grant of 2. *)
Definition served_both (w : World) : bool :=
  returned 0 w && (served w =? 2)%nat.

(** A transport whose send opens one connection and returns its argument;
    the state of the network is the number of connections opened. *)
Definition connect_and_echo : send_method Z Z nat :=
  fun _ args s => Done (Return args) (mkSys (sys_thread s) (S (sys_net s))).

(** ** Proof automation for the case analyses on [step] *)

Ltac inv_fields :=
  split; unfold lock_of, queue_of in *; cbn in *.

Ltac lock_others L2 :=
  let i := fresh "i" in let cl := fresh "cl" in let Hl := fresh "Hl" in
  intros i cl Hl; specialize (L2 i cl Hl); intuition congruence.

Ltac list_goal :=
  intros; rewrite ?elem_of_app, ?elem_of_cons, ?elem_of_nil in *;
  intuition (try congruence).

Ltac case_step Hs :=
  repeat match type of Hs with
    | context [owner ?c] => destruct (owner c) eqn:?; cbn in Hs
    | context [run_pc ?c] => destruct (run_pc c) eqn:?; cbn in Hs
    | context [started ?c] => destruct (started c) eqn:?; cbn in Hs
    | context [bool_decide ?P] => destruct (bool_decide_reflect P); cbn in Hs
    end.

(** ** Accounting of permits and connections *)

(** The count a call adds to [__requests]. *)
Definition call_grant (c : call) : Z :=
  match c with
  | HandleRequest n => n
  | _ => 0
  end.

Definition point_grant (p : call_point) : Z :=
  match p with
  | CBody c => call_grant c
  | _ => 0
  end.

(** Sum of [f] over a list. *)
Definition sumZ {A : Type} (f : A -> Z) (l : list A) : Z :=
  foldr (fun a acc => f a + acc) 0 l.
Arguments sumZ : simpl never.

(** Permits a client has not granted yet. *)
Definition client_grants (cl : Client) : Z :=
  point_grant (pc cl) + sumZ call_grant (todo cl).

Definition granted_later (w : World) : Z := sumZ client_grants (clients w).

(** [server.handle_request] has returned and [__requests -= 1] is due. *)
Definition in_decrement (w : World) : Z :=
  if bool_decide (run_pc w = RDecr) then 1 else 0.

Definition permit_balance (w : World) : Z :=
  granted_later w + requests (thread w) + Z.of_nat (served w) - in_decrement w.

Definition call_connects (c : call) : Z :=
  match c with
  | Connect => 1
  | _ => 0
  end.

(** Connections a client has not opened yet. *)
Definition client_connects (cl : Client) : Z := sumZ call_connects (todo cl).

Definition connection_balance (w : World) : Z :=
  sumZ client_connects (clients w) + Z.of_nat (incoming w) + Z.of_nat (served w).

(** A client has made all its calls, or an exception ended it. *)
Definition client_over (cl : Client) : Prop :=
  (pc cl = CReady /\ todo cl = []) \/ pc cl = CFailed.

(** Further facts that hold in every reachable state. *)
Record Inv2 (w : World) : Prop := mkInv2 {
  inv_past_start : started (thread w) = true ->
    run_before_started (run_pc w) = false;
  inv_idle : TServer ∈ queue_of w -> requests (thread w) = 0;
  inv_left : run_pc w = RExit \/ run_pc w = RRelease \/ run_pc w = RDone ->
    serving (thread w) = false;
  inv_server_gone : run_pc w = RRelease \/ run_pc w = RDone ->
    server (thread w) = false
}.

(** ** The flow of a test *)

(** What [DoRawRequest] and [ServerTransportWrapper.send_rpc] do to the
    server thread and the socket: [self.server.handle_request()], then the
    connection of the request. *)
Definition raw_request : list call := [HandleRequest 1; Connect].

Definition requests_left (k : nat) : list call :=
  concat (replicate k raw_request).

(** [StartWebServer] ([server.start(); server.wait_until_running()])
    followed by [n] requests. *)
Definition test_run (n : nat) : list call :=
  [Start; WaitUntilRunning] ++ requests_left n.

(** Where the driver of [test_run n] can be, with [k] requests to go. *)
Definition driver_at (k : nat) (cl : Client) : Prop :=
  cl = mkClient CReady (WaitUntilRunning :: requests_left k)
  \/ cl = mkClient (CBody WaitUntilRunning) (requests_left k)
  \/ cl = mkClient CWaiting (requests_left k)
  \/ cl = mkClient CRelease (requests_left k)
  \/ cl = mkClient CReady (requests_left k)
  \/ cl = mkClient (CBody (HandleRequest 1)) (Connect :: requests_left k)
  \/ cl = mkClient CRelease (Connect :: requests_left k)
  \/ cl = mkClient CReady (Connect :: requests_left k).

Definition on_track (n : nat) (w : World) : Prop :=
  serving (thread w) = true
  /\ exists cl, clients w = [cl]
      /\ ((run_pc w = RNew /\ cl = mkClient CReady (test_run n))
          \/ (run_pc w <> RNew /\ exists k, driver_at k cl)).

(** ** RequestHandlerTestBase.CheckResponse *)

(** [str.lower()] on one character: the letters A to Z move to a to z. *)
Definition lower_char (c : ascii) : ascii :=
  let n := nat_of_ascii c in
  if ((65 <=? n) && (n <=? 90))%nat then ascii_of_nat (n + 32) else c.

Fixpoint lower (s : string) : string :=
  match s with
  | EmptyString => EmptyString
  | String c s' => String (lower_char c) (lower s')
  end.

(** Which assertion of the check failed. *)
Inductive check_failure : Type :=
| StatusDiffers (expected actual : string)
| HeaderDiffers (name expected actual : string)
| KeysNotFound (missing : gset string)
| ContentDiffers (expected actual : string).

Inductive checked (A : Type) : Type :=
| Passed (a : A)
| Failed (f : check_failure).
Arguments Passed {A} a.
Arguments Failed {A} f.

(** The loop of [start_response] over the headers of the response:
    [found] is [found_keys]. *)
Fixpoint check_headers (expected_headers : gmap string string)
    (headers : list (string * string)) (found : gset string)
  : checked (gset string) :=
  match headers with
  | [] => Passed found
  | (name, value) :: rest =>
      let name := lower name in
      match expected_headers !! name with
      | None => check_headers expected_headers rest found
      | Some expected_value =>
          if decide (expected_value = value)
          then check_headers expected_headers rest ({[name]} ∪ found)
          else Failed (HeaderDiffers name expected_value value)
      end
  end.

Definition start_response (expected_status : string)
    (expected_headers : gmap string string)
    (status : string) (headers : list (string * string)) : checked unit :=
  if decide (expected_status = status) then
    match check_headers expected_headers headers ∅ with
    | Failed f => Failed f
    | Passed found_keys =>
        let missing_headers := dom expected_headers ∖ found_keys in
        if decide (missing_headers = ∅) then Passed tt
        else Failed (KeysNotFound missing_headers)
    end
  else Failed (StatusDiffers expected_status status).

Definition check_content (expected_content content : string) : checked unit :=
  if decide (expected_content = content) then Passed tt
  else Failed (ContentDiffers expected_content content).

(** What [wsgi_write] hands to [start_response] and to the callable it
    returns. *)
Record Response : Type := mkResponse {
  resp_status : string;
  resp_headers : list (string * string);
  resp_body : string
}.

Definition CheckResponse (expected_status : string)
    (expected_headers : gmap string string) (expected_content : string)
    (response : Response) : checked unit :=
  match start_response expected_status expected_headers
          (resp_status response) (resp_headers response) with
  | Failed f => Failed f
  | Passed _ => check_content expected_content (resp_body response)
  end.

(** The headers of the response agree with the expected ones wherever the
    lower-cased name is expected. *)
Definition values_agree (eh : gmap string string)
    (hs : list (string * string)) : Prop :=
  forall n v ev, (n, v) ∈ hs -> eh !! lower n = Some ev -> ev = v.

(** ** More example runs *)

(** A whole run of [test_run 1]: start, [run] up to its first [wait()],
    [wait_until_running], the grant, the connection, and [run] serving the
    request and waiting again. *)
Definition one_request_schedule : list tid :=
  until_first_grant ++ [TClient 0; TServer; TServer; TServer; TServer; TServer].

Definition one_request_done : World :=
  mkWorld (mkServerThread true (mkCondition None [TServer]) true true 0)
    RWait [mkClient CReady []] 0 1.

(** The driver of [two_grants] inside [wait_until_running], [run] already
    waiting. *)
Definition driver_checks_started : World :=
  mkWorld (mkServerThread true (mkCondition (Some (TClient 0)) [TServer])
             true true 0)
    RWait [mkClient (CBody WaitUntilRunning) [HandleRequest 1; HandleRequest 1]]
    0 0.

(** The end of [driver_waits_first] on [permit_before_start]. *)
Definition driver_stranded : World :=
  mkWorld (mkServerThread true (mkCondition (Some TServer) []) true true 1)
    RServe [mkClient CWaiting []] 0 0.

(** ** EndToEndTestBase.DoRawRequest: the arguments of [urllib2.Request] *)

(** A header value: [len(...)] is an integer, the content type a string. *)
Inductive hvalue : Type :=
| HInt (n : Z)
| HStr (s : string).

#[global] Instance hvalue_eq_dec : EqDecision hvalue.
Proof. solve_decision. Defined.

(** Dictionaries live in a heap, so that the dictionary a caller passes
    and the one the function updates can be the same object. *)
Definition heap_alloc (h : gmap nat (gmap string hvalue))
    (d : gmap string hvalue) : gmap nat (gmap string hvalue) * nat :=
  let l := fresh (dom h) in (<[l := d]> h, l).
Arguments heap_alloc : simpl never.

(** [headers or {}]: [None] and the empty dictionary are false, so a new
    dictionary is made; any other dictionary is used as it is. *)
Definition headers_or_new (h : gmap nat (gmap string hvalue))
    (headers : option nat) : gmap nat (gmap string hvalue) * nat :=
  match headers with
  | None => heap_alloc h ∅
  | Some l =>
      match h !! l with
      | Some d => if decide (d = ∅) then heap_alloc h ∅ else (h, l)
      | None => heap_alloc h ∅
      end
  end.

(** [len(content or '')]. *)
Definition content_length (content : option string) : Z :=
  Z.of_nat (String.length (default ""%string content)).

(** The dictionary literal passed to [update]. *)
Definition length_and_type (content : option string) (content_type : string)
  : gmap string hvalue :=
  <["content-length"%string := HInt (content_length content)]>
    (<["content-type"%string := HStr content_type]> ∅).

(** [d.update(new)]: the keys of [new] win. *)
Definition dict_update (new d : gmap string hvalue) : gmap string hvalue :=
  new ∪ d.

(** The three arguments of the call [urllib2.Request(url, data, headers)].
    [req_headers] is the dictionary as [DoRawRequest] hands it over; what
    the library's [Request] makes of it (it files each header under
    [key.capitalize()], so that keys which differ in case only fall
    together) is not part of this file. *)
Record RawRequest : Type := mkRawRequest {
  req_url : string;
  req_data : option string;
  req_headers : gmap string hvalue
}.

(** [DoRawRequest] up to the call of [urllib2.Request]: the heap of
    dictionaries afterwards and the arguments of the call; what follows is
    [raw_request]. *)
Definition DoRawRequest_request (service_url method : string)
    (content : option string) (content_type : string) (headers : option nat)
    (h : gmap nat (gmap string hvalue))
  : gmap nat (gmap string hvalue) * RawRequest :=
  let '(h1, l) := headers_or_new h headers in
  let h2 := alter (dict_update (length_and_type content content_type)) l h1 in
  (h2, mkRawRequest (service_url ++ "." ++ method) content
         (default ∅ (h2 !! l))).

(** The dictionary the caller passed, as [headers or {}] reads it. *)
Definition passed_headers (h : gmap nat (gmap string hvalue))
    (headers : option nat) : gmap string hvalue :=
  default ∅ (headers ≫= fun l => h !! l).

(** ** WebServerTestBase.setUp and tearDown: the module global
       [transport.urlfetch] *)

Section Urlfetch.
(** The value of [transport.urlfetch] when it is not [None]. *)
Variable Fetch : Type.

Record TestEnv : Type := mkTestEnv {
  urlfetch : option Fetch;                      (* [transport.urlfetch] *)
  original_urlfetch : option (option Fetch)     (* [self._original_urlfetch],
                                                   [None] while unset *)
}.

Inductive test_step : Type :=
| StepOk (e : TestEnv)
| StepAssertionError (msg : string) (e : TestEnv)
| StepAttributeError (attr : string) (e : TestEnv).

(** The part of [setUp] on [transport.urlfetch]. *)
Definition setUp_urlfetch (USE_URLFETCH : bool) (e : TestEnv) : test_step :=
  if USE_URLFETCH then
    match urlfetch e with
    | None => StepAssertionError "App Engine SDK is not in pythonpath" e
    | Some _ => StepOk e
    end
  else StepOk (mkTestEnv None (Some (urlfetch e))).

(** The part of [tearDown] on [transport.urlfetch]. *)
Definition tearDown_urlfetch (USE_URLFETCH : bool) (e : TestEnv) : test_step :=
  if USE_URLFETCH then StepOk e
  else
    match original_urlfetch e with
    | None => StepAttributeError "_original_urlfetch" e
    | Some saved => StepOk (mkTestEnv saved (original_urlfetch e))
    end.
End Urlfetch.

Arguments mkTestEnv {Fetch} urlfetch original_urlfetch.
Arguments urlfetch {Fetch} t.
Arguments original_urlfetch {Fetch} t.
Arguments StepOk {Fetch} e.
Arguments StepAssertionError {Fetch} msg e.
Arguments StepAttributeError {Fetch} attr e.
Arguments setUp_urlfetch {Fetch} USE_URLFETCH e.
Arguments tearDown_urlfetch {Fetch} USE_URLFETCH e.

(** ** A bound on the length of executions *)

(** Steps a call still costs its thread ([Connect] also pays for the
    three steps [run] takes to serve the connection). *)
Definition call_cost (c : call) : nat :=
  match c with
  | Start => 1
  | Connect => 4
  | _ => 5
  end.

Definition point_cost (p : call_point) : nat :=
  match p with
  | CReady | CFailed => 0
  | CBody WaitUntilRunning => 2
  | CBody _ => 4
  | CWaiting | CRelease => 1
  end.

Definition todo_cost (l : list call) : nat :=
  foldr (fun c acc => (call_cost c + acc)%nat) O l.

(** A waiting thread that has been notified has two more steps to take
    than one that is still queued. *)
Definition woken (q : list tid) (t : tid) : nat :=
  if bool_decide (t ∈ q) then 0%nat else 2%nat.

Definition client_potential (q : list tid) (i : nat) (cl : Client) : nat :=
  (point_cost (pc cl) + todo_cost (todo cl)
   + match pc cl with
     | CWaiting => woken q (TClient i)
     | _ => 0
     end)%nat.

Fixpoint clients_potential (q : list tid) (i : nat) (cls : list Client) : nat :=
  match cls with
  | [] => O
  | cl :: rest => (client_potential q i cl + clients_potential q (S i) rest)%nat
  end.

(** [n] is the number of client threads: [notifyAll] can wake them all. *)
Definition run_cost (n : nat) (p : run_point) : nat :=
  match p with
  | RNew => 2 * n + 10
  | RAcquire => 2 * n + 9
  | RBegin => 2 * n + 8
  | RLoop => 5
  | RWait => 4
  | RServe => 4
  | RDecr => 6
  | RExit => 2
  | RRelease => 1
  | RDone => 0
  end%nat.

Definition run_potential (q : list tid) (n : nat) (p : run_point) : nat :=
  (run_cost n p
   + match p with
     | RWait => woken q TServer
     | _ => 0
     end)%nat.

Definition potential (w : World) : nat :=
  (run_potential (queue_of w) (length (clients w)) (run_pc w)
   + clients_potential (queue_of w) 0 (clients w)
   + 3 * incoming w)%nat.

(** The longest execution [init progs pending] allows, in steps. *)
Definition step_bound (progs : list (list call)) (pending : nat) : nat :=
  (2 * length progs + 10 + sum_list (todo_cost <$> progs) + 3 * pending)%nat.

Ltac settle H :=
  unfold client_potential in H; cbn [pc todo point_cost call_cost] in H; lia.

(** * Properties of TestService *)

Lemma optional_message_nonempty (self : TestService) (request : OptionalMessage)
    (s : string) :
  string_value request = Some s ->
  s <> ""%string ->
  optional_message self request
  = Return (mkOptionalMessage (Some ("+" ++ s)%string) (other_fields request)).
Proof.
  intros Hs Hne. unfold optional_message. rewrite Hs. cbn.
  destruct (String.eqb_spec s "") as [->|_]; [congruence|reflexivity].
Qed.

Lemma optional_message_falsy (self : TestService) (request : OptionalMessage) :
  truthy (string_value request) = false ->
  optional_message self request = Return request.
Proof. intros H. unfold optional_message. now rewrite H. Qed.

(** C4: a request whose [string_value] is "x" comes back from
    [optional_message] as the same message with [string_value] "+x", every
    other field unchanged. *)
Theorem optional_message_x (self : TestService) (request : OptionalMessage) :
  string_value request = Some "x"%string ->
  exists response,
    optional_message self request = Return response
    /\ string_value response = Some "+x"%string
    /\ other_fields response = other_fields request.
Proof.
  intros Hx. eexists. split.
  - apply (optional_message_nonempty self request "x" Hx). discriminate.
  - split; reflexivity.
Qed.

Lemma optional_message_x_witness :
  exists response,
    optional_message (TestService_init None)
      (mkOptionalMessage (Some "x"%string) [("int64_value", "7")%string])
    = Return response
    /\ string_value response = Some "+x"%string
    /\ other_fields response = [("int64_value", "7")%string].
Proof.
  apply (optional_message_x (TestService_init None)
           (mkOptionalMessage (Some "x"%string) [("int64_value", "7")%string])).
  reflexivity.
Defined.

(** C5: [raise_application_error] raises, for every request, the
    application error with message "This is an application error" and name
    "ERROR_NAME", and the client's stub call ends in that same error. *)
Theorem raise_application_error_exact {Req Resp : Type} (self : TestService)
    (request : Req) (valid : Resp -> bool) :
  raise_application_error (Resp := Resp) self request
  = Raise (ApplicationError "This is an application error" "ERROR_NAME")
  /\ stub_call (raise_application_error self) valid request
     = ClientApplicationError "This is an application error" "ERROR_NAME".
Proof. split; reflexivity. Qed.

Lemma init_parameter_message {Req : Type} (arg : string) (request : Req) :
  init_parameter (TestService_init (Some arg)) request
  = Return (OptionalMessage_new arg).
Proof. reflexivity. Qed.

(** C7: the two registrations of [DEFAULT_MAPPING] build instances with
    different constructor messages, and [init_parameter] on each returns a
    message whose [string_value] is that instance's message: "uninitialized"
    at /my/service, "initialized" at /my/other_service. *)
Theorem init_parameter_two_instances {Req : Type} (request : Req) :
  exists a b : TestService,
    service_at "/my/service" = Some a
    /\ service_at "/my/other_service" = Some b
    /\ init_parameter a request = Return (OptionalMessage_new (message a))
    /\ init_parameter b request = Return (OptionalMessage_new (message b))
    /\ message a = "uninitialized"%string
    /\ message b = "initialized"%string
    /\ init_parameter a request <> init_parameter b request.
Proof.
  exists (TestService_init None), (TestService_init (Some "initialized"%string)).
  repeat split; discriminate.
Qed.

Lemma load_name_requset {Obj : Type} (self request : Obj) :
  load_name [("self"%string, self); ("request"%string, request)] "requset"
  = Raise (NameError "requset").
Proof. reflexivity. Qed.

(** C9: [nested_message] raises [NameError] for the name "requset" on
    every request, never returns a value, and the client's stub call ends in
    an unexpected error, never in a response. *)
Theorem nested_message_name_error (NestedMessage : Type)
    (get_string_value : binding (TestService + NestedMessage) -> outcome string)
    (set_string_value : NestedMessage -> string -> outcome NestedMessage)
    (valid : NestedMessage -> bool)
    (self : TestService) (request : NestedMessage) :
  let call := nested_message NestedMessage get_string_value set_string_value self in
  call request = Raise (NameError "requset")
  /\ (forall response, call request <> Return response)
  /\ stub_call call valid request = ClientUnexpectedError
  /\ (forall response, stub_call call valid request <> ClientResponse response).
Proof.
  assert (H : nested_message NestedMessage get_string_value set_string_value
                self request = Raise (NameError "requset")).
  { unfold nested_message. rewrite load_name_requset. reflexivity. }
  cbv zeta. unfold stub_call, dispatch. rewrite H.
  repeat split; intros; discriminate.
Qed.

(** * Properties of ServerTransportWrapper *)

Lemma handle_request_open (t : tid) (n : Z) (st : ServerThread) :
  lock_open t st ->
  handle_request t n st
  = Some (mkServerThread (server st)
            (mkCondition (owner (condition st)) (tail (waiters (condition st))))
            (serving st) (started st) (requests st + n)).
Proof.
  destruct st as [sv [o q] sg sd rq]. unfold lock_open. cbn.
  intros [Hfree|Hmine]; subst o; unfold handle_request, locked, cond_enter; cbn.
  - reflexivity.
  - rewrite decide_True by reflexivity. reflexivity.
Qed.

Lemma handle_request_free (t : tid) (n : Z) (st : ServerThread) :
  owner (condition st) = None ->
  handle_request t n st
  = Some (mkServerThread (server st)
            (mkCondition None (tail (waiters (condition st))))
            (serving st) (started st) (requests st + n)).
Proof.
  intros Hfree. rewrite handle_request_open by (left; exact Hfree).
  rewrite Hfree. reflexivity.
Qed.

Lemma handle_request_taken (t : tid) (n : Z) (st : ServerThread) :
  ~ lock_open t st -> handle_request t n st = None.
Proof.
  intros Htaken. unfold handle_request, locked, cond_enter.
  destruct (owner (condition st)) as [u|] eqn:Ho.
  - destruct (decide (u = t)) as [->|Hne]; [|reflexivity].
    exfalso. apply Htaken. right. exact Ho.
  - exfalso. apply Htaken. left. exact Ho.
Qed.

(** C6, as amended: for a wrapper built by [__init__] around any transport,
    [send_rpc] (called on the wrapper or through the patched attribute of
    the wrapped transport) first runs [handle_request()] on the server
    thread.  When the lock of the server thread is free or held by the
    caller, that call adds one permit, takes the first waiter off the queue
    of the condition, leaves every other field and the owner of the lock as
    they were and raises nothing; [send_rpc] then gives exactly the effect
    of the transport's original [send_rpc] on the same arguments in that
    state: the same returned value or the same raised exception.  While
    another thread holds the lock the call blocks and the original is not
    called. *)
Theorem send_rpc_notifies_then_delegates {Args Result Net StartRpc : Type}
    (tr : Transport Args Result Net StartRpc) (caller : tid)
    (args : Args) (s : Sys Net) :
  let wrapper := ServerTransportWrapper_init tr in
  let st := sys_thread s in
  let notified :=
    mkServerThread (server st)
      (mkCondition (owner (condition st)) (tail (waiters (condition st))))
      (serving st) (started st) (requests st + 1) in
  send_rpc_attr (transport wrapper) caller args s = send_rpc wrapper caller args s
  /\ original_send_rpc wrapper = send_rpc_attr tr
  /\ _start_rpc wrapper = start_rpc_attr tr
  /\ send_rpc wrapper caller args s
     = if decide (lock_open caller st)
       then send_rpc_attr tr caller args (mkSys notified (sys_net s))
       else Blocked.
Proof.
  cbv zeta. split; [reflexivity|]. split; [reflexivity|]. split; [reflexivity|].
  unfold send_rpc, wrapper_send_rpc, then_, notify_server_thread. cbn.
  destruct (decide (lock_open caller (sys_thread s))) as [Hopen|Htaken].
  - rewrite (handle_request_open caller 1 _ Hopen). reflexivity.
  - rewrite (handle_request_taken caller 1 _ Htaken). reflexivity.
Qed.

(** * Properties of ServerThread *)

(** ** The invariant holds in every reachable state *)

Lemma tid_cases (l : list tid) :
  TServer ∉ l -> (forall i, TClient i ∉ l) -> l = [].
Proof.
  intros Hs Hc. apply elem_of_nil_inv. intros [|i]; auto.
Qed.

Lemma init_Inv progs pending : Inv (init progs pending).
Proof.
  split; unfold lock_of, queue_of; cbn.
  - split; discriminate.
  - intros i cl Hl. rewrite list_lookup_fmap in Hl.
    destruct (progs !! i); inversion Hl; subst; cbn. split; discriminate.
  - discriminate.
  - intros i cl c Hl. rewrite list_lookup_fmap in Hl.
    destruct (progs !! i); inversion Hl; subst; cbn. discriminate.
  - intros H. inversion H.
  - discriminate.
  - reflexivity.
  - discriminate.
  - intros [H|H]; discriminate.
Qed.





Lemma started_in_loop w :
  Inv w -> run_before_started (run_pc w) = false -> started (thread w) = true.
Proof.
  intros HI Hp. destruct (started (thread w)) eqn:Hst; [reflexivity|].
  apply (inv_started _ HI) in Hst. congruence.
Qed.

Lemma queue_empty_in_loop w :
  Inv w -> run_before_started (run_pc w) = false -> run_pc w <> RWait ->
  queue_of w = [].
Proof.
  intros HI Hp Hw. apply tid_cases.
  - intros Hin. apply (inv_queue_server _ HI) in Hin. tauto.
  - apply (inv_queue_clients _ HI), started_in_loop; assumption.
Qed.


Lemma run_step_Inv w w' : Inv w -> run_step w = Some w' -> Inv w'.
Proof.
  intros HI Hs. pose proof HI as [L1 L2 L3 L4 Q1 Q2 Q3 D1 N1].
  unfold run_step, cond_wake, cond_acquire in Hs. unfold lock_of, queue_of in *.
  destruct (run_pc w) eqn:Hpc; cbn in *;
    repeat match type of Hs with
    | context [owner ?c] => destruct (owner c) eqn:?; cbn in Hs
    | context [serving ?c] => destruct (serving c) eqn:?; cbn in Hs
    | context [Z.eqb ?a ?b] => destruct (Z.eqb_spec a b); cbn in Hs
    | context [bool_decide ?P] => destruct (bool_decide_reflect P); cbn in Hs
    | context [incoming ?c] => destruct (incoming c) eqn:?; cbn in Hs
    end; try discriminate; inversion Hs; subst; clear Hs;
    inv_fields; try rewrite Hpc in *.
  all: try solve [lock_others L2].
  all: try solve [intuition (try congruence)].
  all: try solve [list_goal].
  all: try (pose proof (queue_empty_in_loop w HI) as HQ; unfold queue_of in HQ;
            rewrite Hpc in HQ; rewrite HQ by (reflexivity || discriminate)).
  all: try solve [list_goal].
  all: try solve [intros; eapply Q2; eauto].
Qed.

Lemma lookup_set_client (l : list Client) (i j : nat) (new old cl' : Client) :
  l !! i = Some old -> <[i := new]> l !! j = Some cl' ->
  (j = i /\ cl' = new) \/ (j <> i /\ l !! j = Some cl').
Proof.
  intros Hold Hl. destruct (decide (j = i)) as [->|Hne].
  - left. rewrite list_lookup_insert_eq in Hl by (eapply lookup_lt_Some; eauto).
    split; congruence.
  - right. rewrite list_lookup_insert_ne in Hl by congruence. auto.
Qed.

Lemma is_Some_set_client (l : list Client) (i j : nat) (new : Client) :
  is_Some (l !! j) -> is_Some (<[i := new]> l !! j).
Proof.
  intros H. apply lookup_lt_is_Some. rewrite length_insert.
  apply lookup_lt_is_Some. exact H.
Qed.



Lemma elem_of_tail {A : Type} (x : A) (l : list A) : x ∈ tail l -> x ∈ l.
Proof. destruct l; cbn; [auto|]. intros H. apply elem_of_cons. auto. Qed.

Lemma tail_queue_server w : Inv w -> TServer ∉ tail (queue_of w).
Proof.
  intros HI Hin. pose proof (elem_of_tail _ _ Hin) as Hq.
  apply (inv_queue_server _ HI) in Hq as [_ Heq].
  rewrite Heq in Hin. cbn in Hin. inversion Hin.
Qed.

Lemma not_serving_when_client_holds w i cl :
  Inv w -> clients w !! i = Some cl -> call_holds (pc cl) = true ->
  run_holds (run_pc w) = false.
Proof.
  intros HI Hcl Hh. apply (inv_call_lock _ HI i cl Hcl) in Hh.
  destruct (run_holds (run_pc w)) eqn:Hr; [|reflexivity].
  apply (inv_run_lock _ HI) in Hr. congruence.
Qed.

Lemma client_step_Inv i w w' : Inv w -> client_step i w = Some w' -> Inv w'.
Proof.
  intros HI Hs. pose proof HI as [L1 L2 L3 L4 Q1 Q2 Q3 D1 N1].
  pose proof (tail_queue_server w HI) as TQ.
  unfold client_step in Hs. unfold lock_of, queue_of in *.
  destruct (clients w !! i) as [[p td]|] eqn:Hcl; [|discriminate]. cbn in Hs.
  pose proof (L2 i _ Hcl) as L2i. pose proof (fun c => L4 i _ c Hcl) as L4i.
  pose proof (not_serving_when_client_holds w i _ HI Hcl) as Hex.
  cbn in L2i, L4i, Hex.
  destruct p as [|c| | |]; cbn in Hs;
    [ destruct td as [|c rest]; [discriminate|]; destruct c | destruct c | | | ];
    unfold call_body, cond_wake, cond_acquire in Hs; cbn in Hs;
    case_step Hs; try discriminate; inversion Hs; subst; clear Hs;
    (split; unfold lock_of, queue_of in *; cbn in *;
     repeat match goal with H : run_pc w = _ |- _ => rewrite H in * end;
     [ (* run lock *) try solve [intuition (try congruence)]
     | (* call lock *)
       let j := fresh "j" in let cl' := fresh "cl'" in let Hl := fresh "Hl" in
       intros j cl' Hl;
       destruct (lookup_set_client _ _ _ _ _ _ Hcl Hl) as [[-> ->]|[Hne Hl']];
       cbn; [|specialize (L2 j cl' Hl')]; try solve [intuition (try congruence)]
     | (* owner *)
       let j := fresh "j" in let Ho := fresh "Ho" in
       intros j Ho; apply is_Some_set_client;
       first [ apply L3; exact Ho | inversion Ho; subst; rewrite Hcl; eauto ]
     | (* body *)
       let j := fresh "j" in let cl' := fresh "cl'" in let Hl := fresh "Hl" in
       let c' := fresh "c'" in let Hp := fresh "Hp" in
       intros j cl' c' Hl Hp;
       destruct (lookup_set_client _ _ _ _ _ _ Hcl Hl) as [[-> ->]|[Hne Hl']];
       cbn in *; [inversion Hp; subst; split; discriminate
                 | eapply L4; eauto ]
     | (* queue server *) try solve [intuition (try congruence)]
     | (* queue clients *) try solve [intuition (try congruence)]
     | (* started *) try solve [intuition (try congruence)]
     | (* down *) try solve [intuition (try congruence)]
     | (* serve *) try solve [intuition (try congruence)] ]).
  all: try (specialize (Hex eq_refl); destruct (run_pc w) eqn:Hrun; try discriminate Hex).
  all: try solve [intros Hin; exfalso; exact (TQ Hin)].
  all: try solve [intros Hst j Hin; apply (Q2 Hst j), elem_of_tail, Hin].
  all: try solve [intuition (try congruence)].
  all: try solve [list_goal].
Qed.

Lemma step_Inv t w w' : Inv w -> step t w = Some w' -> Inv w'.
Proof.
  destruct t as [|i]; cbn; [apply run_step_Inv | apply client_step_Inv].
Qed.

Lemma run_schedule_Inv sch : forall w w',
  Inv w -> run_schedule sch w = Some w' -> Inv w'.
Proof.
  induction sch as [|t sch IH]; intros w w' HI Hr; cbn in Hr.
  - congruence.
  - destruct (step t w) as [w1|] eqn:Hs; [|discriminate]. cbn in Hr.
    eapply IH; [|exact Hr]. eapply step_Inv; eauto.
Qed.

Lemma reachable_Inv w : reachable w -> Inv w.
Proof.
  intros (progs & pending & sch & Hr).
  eapply run_schedule_Inv; [apply init_Inv | exact Hr].
Qed.

Lemma run_schedule_app sch1 : forall sch2 w w1 w2,
  run_schedule sch1 w = Some w1 -> run_schedule sch2 w1 = Some w2 ->
  run_schedule (sch1 ++ sch2) w = Some w2.
Proof.
  induction sch1 as [|t sch1 IH]; intros sch2 w w1 w2 H1 H2; cbn in *.
  - congruence.
  - destruct (step t w) as [w'|]; [|discriminate]. cbn in *. eauto.
Qed.

Lemma reachable_step t w w' : reachable w -> step t w = Some w' -> reachable w'.
Proof.
  intros (progs & pending & sch & Hr) Hs. exists progs, pending, (sch ++ [t]).
  eapply run_schedule_app; [exact Hr|]. cbn. rewrite Hs. reflexivity.
Qed.

Lemma reachable_run sch w w' :
  reachable w -> run_schedule sch w = Some w' -> reachable w'.
Proof.
  intros (progs & pending & sch0 & Hr) Hs. exists progs, pending, (sch0 ++ sch).
  eapply run_schedule_app; eauto.
Qed.

(** ** The permit counter *)

Lemma init_grants_nonneg progs pending :
  Forall (Forall call_nonneg) progs -> grants_nonneg (init progs pending).
Proof.
  intros H. unfold grants_nonneg, init. cbn.
  apply Forall_fmap. eapply Forall_impl; [exact H|].
  intros p Hp. cbn. auto.
Qed.

Lemma run_step_requests w w' :
  run_step w = Some w' ->
  clients w' = clients w
  /\ (requests (thread w') = requests (thread w)
      \/ (run_pc w = RDecr /\ requests (thread w') = requests (thread w) - 1)).
Proof.
  intros Hs. unfold run_step, cond_wake, cond_acquire in Hs.
  destruct (run_pc w) eqn:Hpc; cbn in *;
    repeat match type of Hs with
    | context [owner ?c] => destruct (owner c) eqn:?; cbn in Hs
    | context [serving ?c] => destruct (serving c) eqn:?; cbn in Hs
    | context [Z.eqb ?a ?b] => destruct (Z.eqb_spec a b); cbn in Hs
    | context [bool_decide ?P] => destruct (bool_decide_reflect P); cbn in Hs
    | context [incoming ?c] => destruct (incoming c) eqn:?; cbn in Hs
    end; try discriminate; inversion Hs; subst; clear Hs; cbn; auto.
Qed.

Lemma client_step_requests i w w' :
  client_step i w = Some w' ->
  exists cl cl', clients w !! i = Some cl /\ clients w' = <[i := cl']> (clients w)
    /\ (requests (thread w') = requests (thread w)
        \/ exists n, pc cl = CBody (HandleRequest n)
             /\ requests (thread w') = requests (thread w) + n)
    /\ (point_nonneg (pc cl) -> Forall call_nonneg (todo cl) ->
        point_nonneg (pc cl') /\ Forall call_nonneg (todo cl')).
Proof.
  intros Hs. unfold client_step in Hs.
  destruct (clients w !! i) as [[p td]|] eqn:Hcl; [|discriminate]. cbn in Hs.
  destruct p as [|c| | |]; cbn in Hs;
    [ destruct td as [|c rest]; [discriminate|]; destruct c | destruct c | | | ];
    unfold call_body, cond_wake, cond_acquire in Hs; cbn in Hs;
    case_step Hs; try discriminate; inversion Hs; subst; clear Hs;
    eexists _, _; (split; [reflexivity|]); (split; [reflexivity|]); cbn;
    (split; [eauto | intros Hp Ht; try inversion Ht; subst; cbn; auto]).
Qed.

Lemma step_counter t w w' :
  Inv w -> grants_nonneg w -> 0 <= requests (thread w) ->
  step t w = Some w' ->
  grants_nonneg w' /\ 0 <= requests (thread w').
Proof.
  intros HI Hg Hn Hs. destruct t as [|i]; cbn in Hs.
  - destruct (run_step_requests w w' Hs) as [Hc [Hr|[Hpc Hr]]].
    + unfold grants_nonneg. rewrite Hc, Hr. auto.
    + unfold grants_nonneg. rewrite Hc, Hr. split; [exact Hg|].
      pose proof (inv_serve _ HI (or_intror Hpc)). lia.
  - destruct (client_step_requests i w w' Hs)
      as (cl & cl' & Hcl & Hc & Hr & Hk).
    unfold grants_nonneg in *.
    pose proof (Forall_lookup_1 _ _ _ _ Hg Hcl) as [Hp Ht].
    split.
    + rewrite Hc. apply Forall_insert; [exact Hg|]. apply Hk; assumption.
    + destruct Hr as [Hr|(n & Hpc & Hr)]; rewrite Hr; [exact Hn|].
      rewrite Hpc in Hp. cbn in Hp. lia.
Qed.

Lemma run_schedule_counter sch : forall w w',
  Inv w -> grants_nonneg w -> 0 <= requests (thread w) ->
  run_schedule sch w = Some w' ->
  grants_nonneg w' /\ 0 <= requests (thread w').
Proof.
  induction sch as [|t sch IH]; intros w w' HI Hg Hn Hr; cbn in Hr.
  - inversion Hr; subst. auto.
  - destruct (step t w) as [w1|] eqn:Hs; [|discriminate]. cbn in Hr.
    destruct (step_counter t w w1 HI Hg Hn Hs) as [Hg1 Hn1].
    eapply IH; [eapply step_Inv; eauto | exact Hg1 | exact Hn1 | exact Hr].
Qed.

(** C1: the permit counter starts at 0; when every [handle_request] passes a
    count [>= 0], it is never negative in a reachable state; a step lowers it
    only if it is the decrement of [run] (by exactly one, taken on a
    counter that is [> 0]), and a step raises it only if it is the body of a
    [handle_request] call of another thread. *)
Theorem requests_never_negative (progs : list (list call)) (pending : nat)
    (sch : list tid) (w : World) :
  Forall (Forall call_nonneg) progs ->
  run_schedule sch (init progs pending) = Some w ->
  requests (thread (init progs pending)) = 0
  /\ 0 <= requests (thread w)
  /\ forall t w', step t w = Some w' ->
       (requests (thread w') < requests (thread w) ->
          t = TServer /\ run_pc w = RDecr /\ 0 < requests (thread w)
          /\ requests (thread w') = requests (thread w) - 1)
       /\ (requests (thread w) < requests (thread w') ->
          exists i cl n, t = TClient i /\ clients w !! i = Some cl
            /\ pc cl = CBody (HandleRequest n)
            /\ requests (thread w') = requests (thread w) + n).
Proof.
  intros Hprogs Hr.
  assert (HI : Inv w) by (eapply run_schedule_Inv; [apply init_Inv|exact Hr]).
  destruct (run_schedule_counter sch _ w (init_Inv progs pending)
              (init_grants_nonneg progs pending Hprogs) (Z.le_refl 0) Hr)
    as [Hg Hn].
  split; [reflexivity|]. split; [exact Hn|].
  intros t w' Hs. destruct t as [|i]; cbn in Hs.
  - destruct (run_step_requests w w' Hs) as [_ [Heq|[Hpc Heq]]].
    + split; intros Hlt; lia.
    + split; intros Hlt; [|lia].
      pose proof (inv_serve _ HI (or_intror Hpc)).
      repeat split; try assumption; lia.
  - destruct (client_step_requests i w w' Hs)
      as (cl & cl' & Hcl & _ & Heq & _).
    pose proof (Forall_lookup_1 _ _ _ _ Hg Hcl) as [Hp _].
    destruct Heq as [Heq|(n & Hpc & Heq)].
    + split; intros Hlt; lia.
    + rewrite Hpc in Hp. cbn in Hp. split; intros Hlt; [lia|].
      exists i, cl, n. auto.
Qed.

Lemma requests_never_negative_witness :
  requests (thread (init [[Start; HandleRequest 2]; [Connect]] 0)) = 0
  /\ 0 <= requests (thread
       (mkWorld (mkServerThread true (mkCondition (Some TServer) []) true true 1)
          RLoop [mkClient CReady []; mkClient CReady []] 0 1)).
Proof.
  pose proof (requests_never_negative [[Start; HandleRequest 2]; [Connect]] 0
    [TClient 0; TServer; TServer; TServer; TClient 0; TClient 0; TClient 0;
     TClient 1; TServer; TServer; TServer; TServer]
    (mkWorld (mkServerThread true (mkCondition (Some TServer) []) true true 1)
       RLoop [mkClient CReady []; mkClient CReady []] 0 1)) as H.
  destruct H as (H0 & Hn & _).
  - repeat constructor; cbn; lia.
  - vm_compute. reflexivity.
  - split; assumption.
Defined.

(** ** Who holds the lock *)

Lemma run_holds_false (p : run_point) :
  run_holds p = false <-> p = RNew \/ p = RAcquire \/ p = RWait \/ p = RDone.
Proof. destruct p; cbn; intuition congruence. Qed.

Lemma client_step_run_pc i w w' :
  client_step i w = Some w' ->
  served w' = served w
  /\ (serving (thread w) = false -> serving (thread w') = false)
  /\ (run_pc w' = run_pc w
      \/ (run_pc w = RNew /\ run_pc w' = RAcquire /\ thread w' = thread w)).
Proof.
  intros Hs. unfold client_step in Hs.
  destruct (clients w !! i) as [[p td]|] eqn:Hcl; [|discriminate]. cbn in Hs.
  destruct p as [|c| | |]; cbn in Hs;
    [ destruct td as [|c rest]; [discriminate|]; destruct c | destruct c | | | ];
    unfold call_body, cond_wake, cond_acquire in Hs; cbn in Hs;
    case_step Hs; try discriminate; inversion Hs; subst; clear Hs; cbn;
    repeat match goal with H : run_pc w = _ |- _ => rewrite H end;
    try solve [auto]; try solve [intuition congruence].
Qed.

(** C10, as amended: at every control point of [run] from the first
    statement of its body to the release in the decorator, except inside
    [condition.wait], the server thread owns the lock; so a step of
    [shutdown], [handle_request] or [wait_until_running] that takes, holds
    or gives back the lock happens only before [run] has the lock, while
    [run] is inside [condition.wait], or after [run] has released the lock,
    never while [server.handle_request] is running; and it leaves the
    control point of [run] where it is. *)
Theorem lock_held_while_serving (w : World) :
  reachable w ->
  (run_holds (run_pc w) = true -> lock_of w = Some TServer)
  /\ (run_pc w = RServe -> lock_of w = Some TServer)
  /\ forall i w', step (TClient i) w = Some w' ->
       lock_of w = Some (TClient i) \/ lock_of w' = Some (TClient i) ->
       (run_pc w = RNew \/ run_pc w = RAcquire \/ run_pc w = RWait
        \/ run_pc w = RDone)
       /\ run_pc w <> RServe /\ run_pc w' = run_pc w.
Proof.
  intros Hreach. pose proof (reachable_Inv w Hreach) as HI.
  split; [apply (inv_run_lock _ HI)|].
  split; [intros Hpc; apply (inv_run_lock _ HI); rewrite Hpc; reflexivity|].
  intros i w' Hs Hlock. cbn in Hs.
  pose proof (client_step_Inv i w w' HI Hs) as HI'.
  assert (Hfree : forall u, Inv u -> lock_of u = Some (TClient i) ->
                            run_holds (run_pc u) = false).
  { intros u Hu Ho. destruct (run_holds (run_pc u)) eqn:Hr; [|reflexivity].
    apply (inv_run_lock _ Hu) in Hr. congruence. }
  destruct (client_step_run_pc i w w' Hs) as (_ & _ & [Hpc|(Hnew & Hacq & Hth)]).
  - assert (Hr : run_holds (run_pc w) = false).
    { destruct Hlock as [Ho|Ho]; [apply Hfree; assumption|].
      rewrite <- Hpc. apply Hfree; assumption. }
    split; [apply run_holds_false; exact Hr|].
    split; [|exact Hpc]. intros Hserve. rewrite Hserve in Hr. discriminate.
  - exfalso. assert (Ho : lock_of w = Some (TClient i)).
    { destruct Hlock as [Ho|Ho]; [exact Ho|]. unfold lock_of in *. congruence. }
    unfold client_step in Hs.
    destruct (clients w !! i) as [cl|] eqn:Hcl; [|discriminate]. cbn in Hs.
    pose proof (proj2 (inv_call_lock _ HI i cl Hcl) Ho) as Hh.
    destruct cl as [p td]. destruct p; cbn in Hh; try discriminate.
    + cbn in Hs. unfold call_body in Hs.
      destruct c; case_step Hs; try discriminate; inversion Hs; subst;
        cbn in Hacq; congruence.
    + cbn in Hs. inversion Hs; subst. cbn in Hacq. congruence.
Qed.

Lemma after_first_grant_reachable : reachable after_first_grant.
Proof. exists two_grants, 0%nat, until_first_grant. vm_compute. reflexivity. Qed.

Lemma lock_held_while_serving_witness :
  reachable after_first_grant
  /\ step (TClient 0) after_first_grant
     = Some (mkWorld (mkServerThread true (mkCondition (Some (TClient 0)) [])
                        true true 1)
               RWait [mkClient (CBody (HandleRequest 1)) []] 0 0)
  /\ run_pc after_first_grant <> RServe.
Proof.
  assert (Hr : reachable after_first_grant).
  { exists two_grants, 0%nat, until_first_grant. vm_compute. reflexivity. }
  split; [exact Hr|]. split; [vm_compute; reflexivity|].
  destruct (lock_held_while_serving after_first_grant Hr) as (_ & _ & H).
  apply (H 0%nat
           (mkWorld (mkServerThread true (mkCondition (Some (TClient 0)) [])
                       true true 1)
              RWait [mkClient (CBody (HandleRequest 1)) []] 0 0)).
  - vm_compute. reflexivity.
  - right. vm_compute. reflexivity.
Defined.

Lemma lock_taken_with_permit_pending :
  (exists w'' : World,
     run_schedule [TClient 0; TClient 0; TClient 0] after_first_grant = Some w''
     /\ run_pc w'' = RWait /\ requests (thread w'') = 2 /\ lock_of w'' = None)
  /\ ~ (forall (w : World) (i : nat) (w' : World),
       reachable w -> step (TClient i) w = Some w' ->
       lock_of w' = Some (TClient i) ->
       run_pc w = RNew \/ run_pc w = RAcquire
       \/ (run_pc w = RWait /\ requests (thread w) = 0)
       \/ run_pc w = RDone).
Proof.
  split.
  - eexists. split; [vm_compute; reflexivity|]. repeat split.
  - intros H.
    specialize (H after_first_grant 0%nat _ after_first_grant_reachable
                  eq_refl eq_refl).
    cbn in H. destruct H as [H|[H|[[_ H]|H]]]; discriminate.
Qed.

(** ** After shutdown *)

Lemma run_step_after_shutdown w w' :
  Inv w -> serving (thread w) = false -> run_step w = Some w' ->
  serving (thread w') = false /\ served w' = served w
  /\ (S (exit_distance (run_pc w')) <= exit_distance (run_pc w))%nat
  /\ run_pc w' <> RWait.
Proof.
  intros HI Hdown Hs. pose proof (inv_down _ HI Hdown) as (D1 & D2 & D3).
  unfold run_step, cond_wake, cond_acquire in Hs.
  destruct (run_pc w) eqn:Hpc; cbn in *; try congruence;
    repeat match type of Hs with
    | context [owner ?c] => destruct (owner c) eqn:?; cbn in Hs
    | context [serving ?c] => rewrite Hdown in Hs; cbn in Hs
    | context [bool_decide ?P] => destruct (bool_decide_reflect P); cbn in Hs
    end; try discriminate; inversion Hs; subst; clear Hs; cbn;
    repeat split; auto; try lia; discriminate.
Qed.

Lemma step_after_shutdown t w w' :
  Inv w -> serving (thread w) = false -> step t w = Some w' ->
  serving (thread w') = false /\ served w' = served w
  /\ ((if bool_decide (t = TServer) then 1 else 0)
      + exit_distance (run_pc w') <= exit_distance (run_pc w))%nat
  /\ (run_pc w' = RWait -> run_pc w = RWait /\ t <> TServer).
Proof.
  intros HI Hdown Hs. destruct t as [|i]; cbn in Hs.
  - destruct (run_step_after_shutdown w w' HI Hdown Hs) as (H1 & H2 & H3 & H4).
    rewrite bool_decide_eq_true_2 by reflexivity.
    repeat split; auto; congruence.
  - destruct (client_step_run_pc i w w' Hs) as (H1 & H2 & H3).
    rewrite bool_decide_eq_false_2 by discriminate.
    split; [auto|]. split; [exact H1|].
    destruct H3 as [H3|(H3 & H4 & _)].
    + rewrite H3. split; [lia|]. intros Hw. split; [exact Hw|discriminate].
    + rewrite H3, H4. cbn. split; [lia|]. discriminate.
Qed.

Lemma server_can_leave w :
  Inv w -> serving (thread w) = false -> lock_of w = None ->
  run_pc w <> RNew -> run_pc w <> RDone -> is_Some (step TServer w).
Proof.
  intros HI Hdown Hfree Hnew Hdone. cbn.
  pose proof (inv_down _ HI Hdown) as (_ & _ & Hq).
  assert (Hr : run_holds (run_pc w) = false).
  { destruct (run_holds (run_pc w)) eqn:Hr; [|reflexivity].
    apply (inv_run_lock _ HI) in Hr. congruence. }
  apply run_holds_false in Hr. unfold lock_of, queue_of in *.
  unfold run_step, cond_wake, cond_acquire.
  destruct Hr as [Hr|[Hr|[Hr|Hr]]]; try congruence; rewrite Hr.
  - rewrite Hfree. cbn. eauto.
  - rewrite bool_decide_eq_false_2 by exact Hq. rewrite Hfree. cbn. eauto.
Qed.

Lemma holder_can_step w :
  Inv w -> serving (thread w) = false -> lock_of w <> None ->
  exists t, is_Some (step t w).
Proof.
  intros HI Hdown Hlock. pose proof (inv_down _ HI Hdown) as (Hs & Hd & _).
  destruct (lock_of w) as [[|i]|] eqn:Ho; [| |congruence].
  - exists TServer. cbn. apply (inv_run_lock _ HI) in Ho.
    unfold run_step. destruct (run_pc w); try discriminate; try congruence;
      cbn; eauto.
    rewrite Hdown. eauto.
  - exists (TClient i). cbn.
    destruct (inv_owner _ HI i Ho) as [cl Hcl].
    pose proof (proj2 (inv_call_lock _ HI i cl Hcl) Ho) as Hh.
    unfold client_step. rewrite Hcl. cbn. destruct cl as [p td].
    destruct p; cbn in Hh; try discriminate; cbn; [|eauto].
    destruct (inv_body _ HI i _ c Hcl eq_refl) as [H1 H2].
    unfold call_body. destruct c; try congruence; eauto.
    destruct (started (thread w)); eauto.
Qed.

Lemma quiescent_after_shutdown w :
  Inv w -> serving (thread w) = false -> quiescent w ->
  run_pc w = RNew \/ run_pc w = RDone.
Proof.
  intros HI Hdown Hq.
  destruct (lock_of w) as [o|] eqn:Ho.
  - destruct (holder_can_step w HI Hdown) as [t [x Hx]]; [congruence|].
    rewrite (Hq t) in Hx. discriminate.
  - destruct (decide (run_pc w = RNew)) as [|Hn]; [auto|].
    destruct (decide (run_pc w = RDone)) as [|Hd]; [auto|].
    destruct (server_can_leave w HI Hdown Ho Hn Hd) as [x Hx].
    rewrite (Hq TServer) in Hx. discriminate.
Qed.

Lemma wakes_after_shutdown sch : forall w w',
  Inv w -> serving (thread w) = false -> run_schedule sch w = Some w' ->
  (wakes sch w <= if bool_decide (run_pc w = RWait) then 1 else 0)%nat.
Proof.
  induction sch as [|t sch IH]; intros w w' HI Hdown Hr; cbn in *; [lia|].
  destruct (step t w) as [w1|] eqn:Hs; [|discriminate]. cbn in Hr.
  destruct (step_after_shutdown t w w1 HI Hdown Hs) as (H1 & _ & _ & H4).
  pose proof (IH w1 w' (step_Inv t w w1 HI Hs) H1 Hr) as Hle.
  destruct (decide (t = TServer /\ run_pc w = RWait)) as [[-> Hw]|Hn].
  - rewrite bool_decide_eq_true_2 by auto.
    rewrite (bool_decide_eq_true_2 _ Hw).
    rewrite bool_decide_eq_false_2 in Hle; [lia|].
    intros Hw1. apply H4 in Hw1 as [_ Hne]. congruence.
  - rewrite (bool_decide_eq_false_2 _ Hn). cbn.
    destruct (decide (run_pc w1 = RWait)) as [Hw1|Hw1].
    + apply H4 in Hw1 as Hw. destruct Hw as [Hw _].
      rewrite (bool_decide_eq_true_2 _ Hw). destruct (bool_decide _); lia.
    + rewrite (bool_decide_eq_false_2 _ Hw1) in Hle.
      destruct (bool_decide (run_pc w = RWait)); lia.
Qed.

Lemma run_schedule_after_shutdown sch : forall w w',
  Inv w -> serving (thread w) = false -> run_schedule sch w = Some w' ->
  serving (thread w') = false /\ served w' = served w
  /\ (count_occ tid_eq_dec sch TServer + exit_distance (run_pc w')
      <= exit_distance (run_pc w))%nat.
Proof.
  induction sch as [|t sch IH]; intros w w' HI Hdown Hr; cbn in Hr.
  - inversion Hr; subst. cbn. auto.
  - destruct (step t w) as [w1|] eqn:Hs; [|discriminate]. cbn in Hr.
    destruct (step_after_shutdown t w w1 HI Hdown Hs) as (H1 & H2 & H3 & _).
    destruct (IH w1 w' (step_Inv t w w1 HI Hs) H1 Hr) as (K1 & K2 & K3).
    split; [exact K1|]. split; [congruence|].
    cbn [count_occ]. destruct (tid_eq_dec t TServer) as [->|Hne].
    + rewrite bool_decide_eq_true_2 in H3 by reflexivity. lia.
    + rewrite bool_decide_eq_false_2 in H3 by exact Hne. lia.
Qed.

(** C2: once [__serving] is false (from the body of [shutdown] on), in
    every continuation of the execution: [__serving] stays false; no request
    is processed and [run] is never inside [server.handle_request], whatever
    the permit count; [run] comes back from [wait()] at most once and takes
    at most [exit_distance] more steps, each one closer to its end; whenever
    the lock is free [run] can take its next step; and a state where no
    thread can move has [run] finished (or never started). *)
Theorem shutdown_is_terminal (w : World) (sch : list tid) (w' : World) :
  reachable w ->
  serving (thread w) = false ->
  run_schedule sch w = Some w' ->
  serving (thread w') = false
  /\ served w' = served w
  /\ run_pc w' <> RServe
  /\ (wakes sch w <= 1)%nat
  /\ (count_occ tid_eq_dec sch TServer + exit_distance (run_pc w')
      <= exit_distance (run_pc w))%nat
  /\ (lock_of w' = None -> run_pc w' <> RNew -> run_pc w' <> RDone ->
      is_Some (step TServer w'))
  /\ (quiescent w' -> run_pc w' = RNew \/ run_pc w' = RDone).
Proof.
  intros Hreach Hdown Hr. pose proof (reachable_Inv w Hreach) as HI.
  pose proof (run_schedule_Inv sch w w' HI Hr) as HI'.
  destruct (run_schedule_after_shutdown sch w w' HI Hdown Hr) as (H1 & H2 & H3).
  split; [exact H1|]. split; [exact H2|].
  split; [apply (inv_down _ HI' H1)|].
  split.
  { pose proof (wakes_after_shutdown sch w w' HI Hdown Hr) as Hw.
    destruct (bool_decide (run_pc w = RWait)); lia. }
  split; [exact H3|].
  split; [apply server_can_leave; assumption|].
  apply quiescent_after_shutdown; assumption.
Qed.

Lemma shutdown_is_terminal_witness :
  reachable after_shutdown
  /\ serving (thread after_shutdown) = false
  /\ run_schedule [TServer; TServer; TServer; TServer] after_shutdown
     = Some after_exit
  /\ served after_exit = served after_shutdown
  /\ run_pc after_exit <> RServe
  /\ (wakes [TServer; TServer; TServer; TServer] after_shutdown <= 1)%nat.
Proof.
  assert (H1 : reachable after_shutdown).
  { exists grant_then_shutdown, 0%nat, until_shutdown. vm_compute. reflexivity. }
  assert (H2 : serving (thread after_shutdown) = false) by reflexivity.
  assert (H3 : run_schedule [TServer; TServer; TServer; TServer] after_shutdown
               = Some after_exit) by (vm_compute; reflexivity).
  destruct (shutdown_is_terminal after_shutdown
              [TServer; TServer; TServer; TServer] after_exit H1 H2 H3)
    as (_ & K2 & K3 & K4 & _).
  repeat split; assumption.
Defined.

(** ** Grants add up *)

Lemma client_handle_request i n rest w :
  clients w !! i = Some (mkClient CReady (HandleRequest n :: rest)) ->
  lock_of w = None ->
  exists st,
    handle_request (TClient i) n (thread w) = Some st
    /\ run_schedule [TClient i; TClient i; TClient i] w
       = Some (set_client i (mkClient CReady rest) (set_thread st w)).
Proof.
  intros Hcl Hfree. unfold lock_of in Hfree.
  assert (Hlt : (i < length (clients w))%nat) by (eapply lookup_lt_Some; eauto).
  rewrite (handle_request_free _ _ _ Hfree). eexists. split; [reflexivity|].
  cbn. unfold client_step. rewrite Hcl. cbn. unfold cond_acquire.
  rewrite Hfree. cbn.
  rewrite list_lookup_insert_eq by exact Hlt. cbn.
  rewrite list_lookup_insert_eq by (rewrite length_insert; exact Hlt). cbn.
  unfold set_client, set_thread. cbn. rewrite !list_insert_insert_eq.
  reflexivity.
Qed.

Lemma notified_after_tail w :
  Inv w ->
  (TServer ∉ tail (queue_of w)) /\ (TServer ∉ tail (tail (queue_of w))).
Proof.
  intros HI. pose proof (tail_queue_server w HI) as H. split; [exact H|].
  intros Hin. apply H. apply elem_of_tail. exact Hin.
Qed.

Lemma run_step_same_loop w1 w2 :
  same_loop w1 w2 -> option_Forall2 same_loop (run_step w1) (run_step w2).
Proof.
  intros (Hv & Hi & Hs). unfold loop_view in Hv. inversion Hv as [[E1 E2 E3 E4 E5 E6 E7]].
  apply (f_equal negb) in E6. rewrite !negb_involutive in E6.
  unfold run_step, cond_wake, cond_acquire.
  rewrite <- E7, <- E1, <- E3, <- E5, <- Hi, <- E6.
  destruct (run_pc w1); cbn;
    repeat match goal with
    | |- context [owner ?c] => destruct (owner c) eqn:?; cbn
    | |- context [serving ?c] => destruct (serving c) eqn:?; cbn
    | |- context [Z.eqb ?a ?b] => destruct (Z.eqb_spec a b); cbn
    | |- context [bool_decide ?P] => destruct (bool_decide P) eqn:?; cbn
    | |- context [incoming ?c] => destruct (incoming c) eqn:?; cbn
    end; constructor; unfold same_loop, loop_view; cbn.
  all: repeat split; try congruence.
  rewrite !(bool_decide_eq_true_2 (TServer ∈ _ ++ [TServer]))
    by (apply elem_of_app; right; apply elem_of_cons; auto).
  congruence.
Qed.

Lemma run_steps_same_loop n : forall w1 w2,
  same_loop w1 w2 -> option_Forall2 same_loop (run_steps n w1) (run_steps n w2).
Proof.
  induction n as [|n IH]; intros w1 w2 H; cbn.
  - constructor. exact H.
  - destruct (run_step_same_loop w1 w2 H) as [a b Hab|]; cbn.
    + apply IH. exact Hab.
    + constructor.
Qed.

(** C8, as amended: from any state of the thread, when the two calls
    [handle_request(1)] are made one after the other with no step of
    another thread in between, they get through exactly when one call
    [handle_request(2)] does (the lock is free or held by the caller), and
    both ways leave [__requests] raised by 2 and [__serving], [__started],
    [server] and the owner of the lock as they were.  The two ways differ
    in the queue of the condition only: two notifications take two waiters
    off it, one notification takes one, so the states are equal exactly
    when at most one thread is queued.  In a state that an execution can
    reach, [run] is notified either way and takes the same steps through
    the same values of these fields afterwards. *)
Theorem grants_are_cumulative (st : ServerThread) (t : tid) :
  let q := waiters (condition st) in
  let after (q' : list tid) :=
    mkServerThread (server st) (mkCondition (owner (condition st)) q')
      (serving st) (started st) (requests st + 2) in
  let twice := handle_request t 1 st ≫= handle_request t 1 in
  let once := handle_request t 2 st in
  twice = (if decide (lock_open t st) then Some (after (tail (tail q))) else None)
  /\ once = (if decide (lock_open t st) then Some (after (tail q)) else None)
  /\ (twice = once <-> ~ lock_open t st \/ (length q <= 1)%nat)
  /\ (forall w : World, reachable w -> thread w = st ->
        forall n, option_Forall2 same_loop
                    (run_steps n (set_thread (after (tail (tail q))) w))
                    (run_steps n (set_thread (after (tail q)) w))).
Proof.
  cbv zeta.
  assert (Htwice : handle_request t 1 st ≫= handle_request t 1
    = if decide (lock_open t st)
      then Some (mkServerThread (server st)
                   (mkCondition (owner (condition st))
                      (tail (tail (waiters (condition st)))))
                   (serving st) (started st) (requests st + 2))
      else None).
  { destruct (decide (lock_open t st)) as [Hopen|Htaken].
    - rewrite (handle_request_open t 1 st Hopen). cbn [mbind option_bind].
      rewrite handle_request_open by exact Hopen. cbn.
      do 2 f_equal. lia.
    - rewrite (handle_request_taken t 1 st Htaken). reflexivity. }
  assert (Honce : handle_request t 2 st
    = if decide (lock_open t st)
      then Some (mkServerThread (server st)
                   (mkCondition (owner (condition st))
                      (tail (waiters (condition st))))
                   (serving st) (started st) (requests st + 2))
      else None).
  { destruct (decide (lock_open t st)) as [Hopen|Htaken].
    - apply handle_request_open. exact Hopen.
    - apply handle_request_taken. exact Htaken. }
  split; [exact Htwice|]. split; [exact Honce|]. split.
  - rewrite Htwice, Honce.
    destruct (decide (lock_open t st)) as [Hopen|Htaken].
    + split.
      * intros Heq. right. inversion Heq as [Hq].
        destruct (waiters (condition st)) as [|a [|b l]]; cbn in *; try lia.
        apply (f_equal length) in Hq. cbn in Hq. lia.
      * intros [Hno|Hlen]; [contradiction|].
        destruct (waiters (condition st)) as [|a [|b l]]; cbn in *;
          try reflexivity. lia.
    + split; [intros _; left; exact Htaken|reflexivity].
  - intros w Hreach Hst n. subst st.
    pose proof (reachable_Inv w Hreach) as HI.
    destruct (notified_after_tail w HI) as [N1 N2]. unfold queue_of in N1, N2.
    apply run_steps_same_loop. split; [|split; reflexivity].
    unfold loop_view. cbn.
    rewrite (bool_decide_eq_false_2 _ N1), (bool_decide_eq_false_2 _ N2).
    reflexivity.
Qed.

Lemma grants_are_cumulative_witness :
  exists st2 : ServerThread,
    (handle_request (TClient 0) 1 (thread after_first_grant)
       ≫= handle_request (TClient 0) 1) = Some st2
    /\ handle_request (TClient 0) 2 (thread after_first_grant) = Some st2
    /\ requests st2 = 3.
Proof.
  destruct (grants_are_cumulative (thread after_first_grant) (TClient 0))
    as (H2 & H1 & _ & _).
  eexists. split; [exact H2|]. split; [exact H1|]. reflexivity.
Defined.


(** ** A permit granted before the thread starts *)

Lemma step_in_successors t w w' : step t w = Some w' -> w' ∈ successors w.
Proof.
  intros Hs. unfold successors. apply list_elem_of_omap. exists t.
  split; [|exact Hs]. unfold threads. destruct t as [|i].
  - apply elem_of_cons. auto.
  - apply elem_of_cons. right. apply list_elem_of_fmap. exists i.
    split; [reflexivity|]. apply elem_of_seq. cbn in Hs. unfold client_step in Hs.
    destruct (clients w !! i) as [cl|] eqn:Hcl; [|discriminate].
    apply lookup_lt_Some in Hcl. lia.
Qed.

Lemma no_successors_quiescent w : successors w = [] <-> quiescent w.
Proof.
  split.
  - intros He t. destruct (step t w) as [w'|] eqn:Hs; [|reflexivity].
    apply step_in_successors in Hs. rewrite He in Hs. inversion Hs.
  - intros Hq. unfold successors. induction (threads w) as [|t l IH]; cbn.
    + reflexivity.
    + rewrite (Hq t). exact IH.
Qed.

Lemma all_runs_eq fuel I P w :
  all_runs fuel I P w
  = I w && match successors w with
           | [] => P w
           | ws => match fuel with
                   | O => false
                   | S fuel' => forallb (all_runs fuel' I P) ws
                   end
           end.
Proof. destruct fuel; reflexivity. Qed.

Lemma all_runs_sound fuel I P : forall w,
  all_runs fuel I P w = true ->
  forall sch w', run_schedule sch w = Some w' ->
    I w' = true /\ (length sch <= fuel)%nat /\ (quiescent w' -> P w' = true).
Proof.
  induction fuel as [|fuel IH]; intros w Hall sch w' Hr;
    rewrite all_runs_eq in Hall; apply andb_prop in Hall as [HIw Hrest];
    (destruct sch as [|t sch]; cbn in Hr;
     [ inversion Hr; subst; split; [exact HIw|]; split; [cbn; lia|];
       intros Hq; apply no_successors_quiescent in Hq; rewrite Hq in Hrest;
       exact Hrest
     | destruct (step t w) as [w1|] eqn:Hs; [|discriminate]; cbn in Hr;
       apply step_in_successors in Hs ]).
  - destruct (successors w); [inversion Hs|discriminate].
  - assert (Hw1 : all_runs fuel I P w1 = true).
    { destruct (successors w) as [|a l] eqn:Hsucc; [inversion Hs|].
      rewrite forallb_forall in Hrest. apply Hrest.
      apply list_elem_of_In. exact Hs. }
    destruct (IH w1 Hw1 sch w' Hr) as (K1 & K2 & K3).
    split; [exact K1|]. split; [cbn; lia|exact K3].
Qed.

(** C3, as amended: with the connection opened by another thread, every
    execution of [handle_request(1)], [start()], [wait_until_running()]
    stops within 16 steps; at most one request is ever served, and
    [wait_until_running] has not returned before that request was served;
    when no thread can move any more, [wait_until_running] has returned,
    exactly one request has been served, and [run] is back in [wait()] with
    zero permits and the lock free. *)
Theorem permit_before_start_served (sch : list tid) (w : World) :
  run_schedule sch (init [permit_before_start; [Connect]] 0) = Some w ->
  (length sch <= 16)%nat
  /\ (served w <= 1)%nat
  /\ (returned 0 w = true -> served w = 1%nat)
  /\ (quiescent w ->
      returned 0 w = true /\ served w = 1%nat /\ run_pc w = RWait
      /\ requests (thread w) = 0 /\ lock_of w = None).
Proof.
  intros Hr.
  assert (Hall : all_runs 16 served_before_return served_once_and_idle
                   (init [permit_before_start; [Connect]] 0) = true)
    by (vm_compute; reflexivity).
  destruct (all_runs_sound _ _ _ _ Hall sch w Hr) as (HI & Hlen & Hfin).
  unfold served_before_return in HI. apply andb_prop in HI as [H1 H2].
  split; [exact Hlen|].
  split; [apply Nat.leb_le; exact H1|].
  split.
  { intros Hret. rewrite Hret in H2. cbn in H2. apply Nat.eqb_eq. exact H2. }
  intros Hq. specialize (Hfin Hq). unfold served_once_and_idle in Hfin.
  repeat (apply andb_prop in Hfin as [Hfin ?]).
  repeat split.
  - exact Hfin.
  - apply Nat.eqb_eq. assumption.
  - unfold run_point_eqb in *. eapply bool_decide_eq_true_1. eassumption.
  - apply Z.eqb_eq. assumption.
  - eapply bool_decide_eq_true_1. eassumption.
Qed.

Lemma permit_before_start_served_witness :
  run_schedule
    [TClient 0; TClient 0; TClient 0; TClient 0; TClient 1;
     TServer; TServer; TServer; TServer; TServer; TServer;
     TClient 0; TClient 0; TClient 0]
    (init [permit_before_start; [Connect]] 0)
  = Some (mkWorld (mkServerThread true (mkCondition None [TServer]) true true 0)
            RWait [mkClient CReady []; mkClient CReady []] 0 1)
  /\ served (mkWorld (mkServerThread true (mkCondition None [TServer]) true true 0)
               RWait [mkClient CReady []; mkClient CReady []] 0 1) = 1%nat.
Proof.
  assert (Hr : run_schedule
    [TClient 0; TClient 0; TClient 0; TClient 0; TClient 1;
     TServer; TServer; TServer; TServer; TServer; TServer;
     TClient 0; TClient 0; TClient 0]
    (init [permit_before_start; [Connect]] 0)
  = Some (mkWorld (mkServerThread true (mkCondition None [TServer]) true true 0)
            RWait [mkClient CReady []; mkClient CReady []] 0 1))
    by (vm_compute; reflexivity).
  split; [exact Hr|].
  destruct (permit_before_start_served _ _ Hr) as (_ & _ & H & _).
  apply H. reflexivity.
Defined.

Lemma permit_before_start_deadlock :
  (forall sch w,
     run_schedule sch (init [permit_before_start ++ [Connect]] 0) = Some w ->
     quiescent w ->
     returned 0 w = false /\ stuck_in_wait_until_running 0 w = true
     /\ served w = 0%nat /\ run_pc w = RServe
     /\ lock_of w = Some TServer)
  /\ ~ (forall sch w,
         run_schedule sch (init [permit_before_start] 0) = Some w ->
         quiescent w ->
         returned 0 w = true /\ served w = 1%nat).
Proof.
  split.
  - intros sch w Hr Hq.
    assert (Hall : all_runs 12 (fun _ => true) blocked_in_serve
                     (init [permit_before_start ++ [Connect]] 0) = true)
      by (vm_compute; reflexivity).
    destruct (all_runs_sound _ _ _ _ Hall sch w Hr) as (_ & _ & Hfin).
    specialize (Hfin Hq). unfold blocked_in_serve in Hfin.
    repeat (apply andb_prop in Hfin as [Hfin ?]).
    assert (Hret : returned 0 w = false).
    { unfold returned, stuck_in_wait_until_running in *.
      destruct (clients w !! 0%nat) as [[[] [|[]]]|]; try discriminate;
        reflexivity. }
    repeat split.
    + exact Hret.
    + exact Hfin.
    + apply Nat.eqb_eq. assumption.
    + unfold run_point_eqb in *. eapply bool_decide_eq_true_1. eassumption.
    + eapply bool_decide_eq_true_1. eassumption.
  - intros H.
    destruct (H driver_waits_first
                (mkWorld (mkServerThread true (mkCondition (Some TServer) [])
                            true true 1)
                   RServe [mkClient CWaiting []] 0 0)) as [Hret _].
    + vm_compute. reflexivity.
    + apply no_successors_quiescent. vm_compute. reflexivity.
    + discriminate Hret.
Qed.

(** ** The queue of the condition under repeated notification *)

(** With two threads queued in [wait_until_running] before [start()], two
    grants of 1 release both and one grant of 2 releases only the first:
    the fields of the thread agree, the queues do not. *)
Remark two_notifications_release_two_waiters :
  let w := mkWorld (mkServerThread true
                      (mkCondition None [TClient 0; TClient 1]) true false 0)
             RNew [mkClient CWaiting []; mkClient CWaiting [];
                   mkClient CReady [HandleRequest 1; HandleRequest 1]] 0 0 in
  reachable w
  /\ (handle_request (TClient 2) 1 (thread w) ≫= handle_request (TClient 2) 1)
     = Some (mkServerThread true (mkCondition None []) true false 2)
  /\ handle_request (TClient 2) 2 (thread w)
     = Some (mkServerThread true (mkCondition None [TClient 1]) true false 2).
Proof.
  cbv zeta. split; [|split; reflexivity].
  exists [[WaitUntilRunning]; [WaitUntilRunning];
          [HandleRequest 1; HandleRequest 1]], 0%nat,
         [TClient 0; TClient 0; TClient 1; TClient 1].
  vm_compute. reflexivity.
Qed.

(** ** Grants and sends while [run] is inside [server.handle_request] *)

(** Where [step] acquires the lock, the thread does not hold it: there the
    acquisition by [cond_acquire] is the outermost one of [cond_enter]. *)
Lemma cond_enter_outermost (t : tid) (c : Condition) :
  owner c <> Some t ->
  cond_enter t c = (fun c' => (c', true)) <$> cond_acquire t c.
Proof.
  intros Hne. unfold cond_enter, cond_acquire.
  destruct (owner c) as [u|]; [|reflexivity].
  destruct (decide (u = t)) as [->|]; [congruence|reflexivity].
Qed.

Lemma acquire_is_outermost (w : World) :
  reachable w ->
  (run_pc w = RAcquire \/ run_pc w = RWait -> lock_of w <> Some TServer)
  /\ (forall i cl, clients w !! i = Some cl ->
        pc cl = CReady \/ pc cl = CWaiting -> lock_of w <> Some (TClient i)).
Proof.
  intros Hreach. pose proof (reachable_Inv w Hreach) as HI. split.
  - intros Hpc Ho. apply (inv_run_lock w HI) in Ho.
    destruct Hpc as [Hpc|Hpc]; rewrite Hpc in Ho; discriminate.
  - intros i cl Hcl Hpc Ho. apply (inv_call_lock w HI i cl Hcl) in Ho.
    destruct Hpc as [Hpc|Hpc]; rewrite Hpc in Ho; discriminate.
Qed.

(** After a grant with no connection behind it, [run] sits inside
    [server.handle_request] with the lock.  The original send goes through
    there and its connection gets the request served; the send through the
    wrapper blocks in [handle_request()] before it opens the connection,
    and no thread can move any more. *)
Lemma send_rpc_blocks_where_original_returns :
  let tr := mkTransport connect_and_echo tt in
  let wrapper := ServerTransportWrapper_init tr in
  let w := serving_without_connection wrapped_send in
  let s := mkSys (thread w) (incoming w) in
  run_schedule until_serving (init grant_then_wrapped_send 0) = Some w
  /\ send_rpc_attr tr (TClient 0) 7 s = Done (Return 7) (mkSys (thread w) 1%nat)
  /\ send_rpc wrapper (TClient 0) 7 s = Blocked
  /\ quiescent w
  /\ run_schedule (until_serving ++ [TClient 0; TServer; TServer; TServer])
       (init grant_then_original_send 0)
     = Some one_request_done.
Proof.
  cbv zeta. split; [vm_compute; reflexivity|]. split; [reflexivity|].
  split; [reflexivity|]. split; [|vm_compute; reflexivity].
  apply no_successors_quiescent. vm_compute. reflexivity.
Qed.

(** Two grants of 1 are not one grant of 2.  Between the two grants [run]
    can take the first permit and enter [server.handle_request] with the
    lock: the second grant then blocks, the connections behind it are never
    opened and nothing is served, while after one grant of 2 every
    execution serves both requests.  And where two threads are queued on
    the condition, the two ways leave different queues. *)
Lemma two_grants_deadlock_where_one_grant_serves :
  let w := serving_without_connection [HandleRequest 1; Connect; Connect] in
  (run_schedule until_serving (init two_grants_two_sends 0) = Some w
   /\ quiescent w /\ served w = 0%nat /\ returned 0 w = false)
  /\ (forall sch w',
        run_schedule sch (init one_grant_two_sends 0) = Some w' ->
        quiescent w' -> served w' = 2%nat /\ returned 0 w' = true)
  /\ (exists w2 : World,
        reachable w2 /\ lock_of w2 = None
        /\ (handle_request (TClient 2) 1 (thread w2)
              ≫= handle_request (TClient 2) 1)
           <> handle_request (TClient 2) 2 (thread w2)).
Proof.
  cbv zeta. split; [|split].
  - split; [vm_compute; reflexivity|].
    split; [apply no_successors_quiescent; vm_compute; reflexivity|].
    split; reflexivity.
  - intros sch w' Hr Hq.
    assert (Hall : all_runs 31 (fun _ => true) served_both
                     (init one_grant_two_sends 0) = true)
      by (vm_compute; reflexivity).
    destruct (all_runs_sound _ _ _ _ Hall sch w' Hr) as (_ & _ & Hfin).
    specialize (Hfin Hq). unfold served_both in Hfin.
    apply andb_prop in Hfin as [Hret Hserved].
    split; [apply Nat.eqb_eq; exact Hserved|exact Hret].
  - destruct two_notifications_release_two_waiters as (Hr & H2 & H1).
    eexists. split; [exact Hr|]. split; [reflexivity|].
    rewrite H2, H1. discriminate.
Qed.

(** * Further properties of ServerThread *)

(** ** More invariants, and the accounting of permits and connections *)

Lemma init_Inv2 progs pending : Inv2 (init progs pending).
Proof.
  split; unfold queue_of; cbn.
  - discriminate.
  - intros H. inversion H.
  - intros [H|[H|H]]; discriminate.
  - intros [H|H]; discriminate.
Qed.

Lemma run_step_Inv2 w w' : Inv w -> Inv2 w -> run_step w = Some w' -> Inv2 w'.
Proof.
  intros HI [A1 A2 A3 A4] Hs. pose proof HI as [L1 L2 L3 L4 Q1 Q2 Q3 D1 N1].
  unfold run_step, cond_wake, cond_acquire in Hs. unfold lock_of, queue_of in *.
  destruct (run_pc w) eqn:Hpc; cbn in *;
    repeat match type of Hs with
    | context [owner ?c] => destruct (owner c) eqn:?; cbn in Hs
    | context [serving ?c] => destruct (serving c) eqn:?; cbn in Hs
    | context [Z.eqb ?a ?b] => destruct (Z.eqb_spec a b); cbn in Hs
    | context [bool_decide ?P] => destruct (bool_decide_reflect P); cbn in Hs
    | context [incoming ?c] => destruct (incoming c) eqn:?; cbn in Hs
    end; try discriminate; inversion Hs; subst; clear Hs;
    (split; unfold queue_of in *; cbn in *; try rewrite Hpc in *).
  all: try solve [intuition (try congruence)].
  all: try solve [list_goal].
Qed.

Lemma client_step_Inv2 i w w' :
  Inv w -> Inv2 w -> client_step i w = Some w' -> Inv2 w'.
Proof.
  intros HI [A1 A2 A3 A4] Hs. pose proof HI as [L1 L2 L3 L4 Q1 Q2 Q3 D1 N1].
  pose proof (tail_queue_server w HI) as TQ.
  unfold client_step in Hs. unfold lock_of, queue_of in *.
  destruct (clients w !! i) as [[p td]|] eqn:Hcl; [|discriminate]. cbn in Hs.
  pose proof (not_serving_when_client_holds w i _ HI Hcl) as Hex. cbn in Hex.
  destruct p as [|c| | |]; cbn in Hs;
    [ destruct td as [|c rest]; [discriminate|]; destruct c | destruct c | | | ];
    unfold call_body, cond_wake, cond_acquire in Hs; cbn in Hs;
    case_step Hs; try discriminate; inversion Hs; subst; clear Hs;
    (split; unfold queue_of in *; cbn in *;
     repeat match goal with H : run_pc w = _ |- _ => rewrite H in * end).
  all: try solve [intuition (try congruence)].
  all: try solve [intros Hin; exfalso; exact (TQ Hin)].
  all: try solve [list_goal].
Qed.

Lemma step_Inv2 t w w' : Inv w -> Inv2 w -> step t w = Some w' -> Inv2 w'.
Proof.
  destruct t as [|i]; cbn; [apply run_step_Inv2 | apply client_step_Inv2].
Qed.

Lemma run_schedule_Inv2 sch : forall w w',
  Inv w -> Inv2 w -> run_schedule sch w = Some w' -> Inv2 w'.
Proof.
  induction sch as [|t sch IH]; intros w w' HI HJ Hr; cbn in Hr.
  - congruence.
  - destruct (step t w) as [w1|] eqn:Hs; [|discriminate]. cbn in Hr.
    eapply IH; [| |exact Hr]; [eapply step_Inv|eapply step_Inv2]; eauto.
Qed.

Lemma reachable_Inv2 w : reachable w -> Inv2 w.
Proof.
  intros (progs & pending & sch & Hr).
  eapply run_schedule_Inv2; [apply init_Inv|apply init_Inv2|exact Hr].
Qed.

Lemma sumZ_cons {A : Type} (f : A -> Z) (a : A) (l : list A) :
  sumZ f (a :: l) = f a + sumZ f l.
Proof. reflexivity. Qed.

Lemma sumZ_insert {A : Type} (f : A -> Z) (l : list A) (i : nat) (old new : A) :
  l !! i = Some old ->
  sumZ f (<[i := new]> l) = sumZ f l - f old + f new.
Proof.
  revert i. induction l as [|a l IH]; intros i Hl; [discriminate|].
  destruct i as [|i].
  - inversion Hl; subst. change (<[0%nat := new]> (old :: l)) with (new :: l).
    rewrite !sumZ_cons. lia.
  - change (<[S i := new]> (a :: l)) with (a :: <[i := new]> l).
    rewrite !sumZ_cons, (IH i Hl). lia.
Qed.

Lemma run_step_balance w w' :
  run_step w = Some w' ->
  permit_balance w' = permit_balance w
  /\ connection_balance w' = connection_balance w.
Proof.
  intros Hs. unfold run_step, cond_wake, cond_acquire in Hs.
  unfold permit_balance, connection_balance, granted_later, in_decrement.
  destruct (run_pc w) eqn:Hpc; cbn in *;
    repeat match type of Hs with
    | context [owner ?c] => destruct (owner c) eqn:?; cbn in Hs
    | context [serving ?c] => destruct (serving c) eqn:?; cbn in Hs
    | context [Z.eqb ?a ?b] => destruct (Z.eqb_spec a b); cbn in Hs
    | context [bool_decide ?P] => destruct (bool_decide_reflect P); cbn in Hs
    | context [incoming ?c] => destruct (incoming c) eqn:?; cbn in Hs
    end; try discriminate; inversion Hs; subst; clear Hs; cbn;
    rewrite ?Hpc; cbn; repeat case_bool_decide; try congruence;
    split; lia.
Qed.

Lemma client_step_balance i w w' :
  client_step i w = Some w' ->
  permit_balance w' = permit_balance w
  /\ connection_balance w' = connection_balance w.
Proof.
  intros Hs. unfold client_step in Hs.
  unfold permit_balance, connection_balance, granted_later, in_decrement.
  destruct (clients w !! i) as [[p td]|] eqn:Hcl; [|discriminate]. cbn in Hs.
  destruct p as [|c| | |]; cbn in Hs;
    [ destruct td as [|c rest]; [discriminate|]; destruct c | destruct c | | | ];
    unfold call_body, cond_wake, cond_acquire in Hs; cbn in Hs;
    case_step Hs; try discriminate; inversion Hs; subst; clear Hs; cbn;
    rewrite !(sumZ_insert _ _ _ _ _ Hcl);
    unfold client_grants, client_connects; cbn; rewrite ?sumZ_cons; cbn;
    repeat match goal with H : run_pc w = _ |- _ => rewrite H end; cbn;
    repeat case_bool_decide; try congruence;
    split; lia.
Qed.

Lemma step_balance t w w' :
  step t w = Some w' ->
  permit_balance w' = permit_balance w
  /\ connection_balance w' = connection_balance w.
Proof.
  destruct t as [|i]; cbn; [apply run_step_balance | apply client_step_balance].
Qed.

Lemma run_schedule_balance sch : forall w w',
  run_schedule sch w = Some w' ->
  permit_balance w' = permit_balance w
  /\ connection_balance w' = connection_balance w.
Proof.
  induction sch as [|t sch IH]; intros w w' Hr; cbn in Hr.
  - inversion Hr; subst. auto.
  - destruct (step t w) as [w1|] eqn:Hs; [|discriminate]. cbn in Hr.
    destruct (step_balance t w w1 Hs) as [H1 H2].
    destruct (IH w1 w' Hr) as [K1 K2]. split; congruence.
Qed.

Lemma init_grants progs :
  sumZ client_grants (mkClient CReady <$> progs) = sumZ (sumZ call_grant) progs.
Proof.
  induction progs as [|p progs IH]; [reflexivity|].
  rewrite fmap_cons, !sumZ_cons, IH. unfold client_grants. cbn. lia.
Qed.

Lemma init_connects progs :
  sumZ client_connects (mkClient CReady <$> progs)
  = sumZ (sumZ call_connects) progs.
Proof.
  induction progs as [|p progs IH]; [reflexivity|].
  rewrite fmap_cons, !sumZ_cons, IH. reflexivity.
Qed.

Lemma init_balance progs pending :
  permit_balance (init progs pending) = sumZ (sumZ call_grant) progs
  /\ connection_balance (init progs pending)
     = sumZ (sumZ call_connects) progs + Z.of_nat pending.
Proof.
  unfold permit_balance, connection_balance, granted_later, in_decrement. cbn.
  rewrite init_grants, init_connects.
  rewrite bool_decide_eq_false_2 by discriminate. split; lia.
Qed.

Lemma sumZ_nonneg {A : Type} (f : A -> Z) (l : list A) :
  Forall (fun a => 0 <= f a) l -> 0 <= sumZ f l.
Proof.
  induction 1 as [|a l Ha _ IH]; [reflexivity|]. rewrite sumZ_cons. lia.
Qed.

Lemma call_connects_nonneg (l : list call) : 0 <= sumZ call_connects l.
Proof.
  apply sumZ_nonneg. apply Forall_forall. intros c _. destruct c; cbn; lia.
Qed.

Lemma permit_balance_of_run (progs : list (list call)) (pending : nat)
    (sch : list tid) (w : World) :
  Forall (Forall call_nonneg) progs ->
  run_schedule sch (init progs pending) = Some w ->
  granted_later w + requests (thread w) + Z.of_nat (served w) - in_decrement w
  = sumZ (sumZ call_grant) progs
  /\ Z.of_nat (served w) <= sumZ (sumZ call_grant) progs - granted_later w.
Proof.
  intros Hprogs Hr.
  destruct (run_schedule_balance sch _ _ Hr) as [Hb _].
  destruct (init_balance progs pending) as [Hi _].
  assert (Heq : permit_balance w = sumZ (sumZ call_grant) progs) by congruence.
  unfold permit_balance in Heq. split; [exact Heq|].
  pose proof (run_schedule_Inv sch _ w (init_Inv progs pending) Hr) as HI.
  destruct (run_schedule_counter sch _ w (init_Inv progs pending)
              (init_grants_nonneg progs pending Hprogs) (Z.le_refl 0) Hr)
    as [_ Hn].
  assert (Hd : in_decrement w <= requests (thread w)).
  { unfold in_decrement. case_bool_decide as Hpc; [|lia].
    pose proof (inv_serve _ HI (or_intror Hpc)). lia. }
  lia.
Qed.


Lemma connection_balance_of_run (progs : list (list call)) (pending : nat)
    (sch : list tid) (w : World) :
  run_schedule sch (init progs pending) = Some w ->
  sumZ client_connects (clients w) + Z.of_nat (incoming w) + Z.of_nat (served w)
  = sumZ (sumZ call_connects) progs + Z.of_nat pending
  /\ Z.of_nat (served w) <= sumZ (sumZ call_connects) progs + Z.of_nat pending.
Proof.
  intros Hr.
  destruct (run_schedule_balance sch _ _ Hr) as [_ Hb].
  destruct (init_balance progs pending) as [_ Hi].
  assert (Heq : connection_balance w
                = sumZ (sumZ call_connects) progs + Z.of_nat pending)
    by congruence.
  unfold connection_balance in Heq. split; [exact Heq|].
  assert (0 <= sumZ client_connects (clients w)).
  { apply sumZ_nonneg. apply Forall_forall. intros cl _.
    apply call_connects_nonneg. }
  lia.
Qed.

(** ** Where the system comes to rest *)

Lemma client_holder_moves w i :
  Inv w -> lock_of w = Some (TClient i) -> is_Some (step (TClient i) w).
Proof.
  intros HI Ho. cbn.
  destruct (inv_owner _ HI i Ho) as [cl Hcl].
  pose proof (proj2 (inv_call_lock _ HI i cl Hcl) Ho) as Hh.
  unfold client_step. rewrite Hcl. cbn. destruct cl as [p td].
  destruct p; cbn in Hh; try discriminate; cbn; [|eauto].
  destruct (inv_body _ HI i _ c Hcl eq_refl) as [H1 H2].
  unfold call_body. destruct c; try congruence; eauto.
  destruct (started (thread w)); eauto.
Qed.

Lemma server_holder_moves w :
  Inv w -> lock_of w = Some TServer ->
  is_Some (step TServer w) \/ (run_pc w = RServe /\ incoming w = 0%nat).
Proof.
  intros HI Ho. cbn. apply (inv_run_lock _ HI) in Ho.
  unfold run_step. destruct (run_pc w); try discriminate; cbn; eauto.
  - destruct (serving (thread w)); [destruct (requests (thread w) =? 0)|]; eauto.
  - destruct (incoming w); eauto.
Qed.

Lemma quiescent_lock (w : World) :
  reachable w -> quiescent w ->
  lock_of w = None
  \/ (lock_of w = Some TServer /\ run_pc w = RServe /\ incoming w = 0%nat).
Proof.
  intros Hreach Hq. pose proof (reachable_Inv w Hreach) as HI.
  destruct (lock_of w) as [[|i]|] eqn:Ho; [| |auto].
  - destruct (server_holder_moves w HI Ho) as [[x Hx]|[H1 H2]]; [|auto].
    rewrite (Hq TServer) in Hx. discriminate.
  - destruct (client_holder_moves w i HI Ho) as [x Hx].
    rewrite (Hq (TClient i)) in Hx. discriminate.
Qed.

(** X3: the lock is never left taken: in a reachable state where no thread can
    move, the lock is free, unless [run] is inside [server.handle_request]
    with no connection to accept. *)
Theorem lock_free_at_rest (w : World) :
  reachable w -> quiescent w ->
  lock_of w = None
  \/ (lock_of w = Some TServer /\ run_pc w = RServe /\ incoming w = 0%nat).
Proof. intros; eapply quiescent_lock; eassumption. Qed.

(** X4: at most one thread is inside a critical section. *)
Theorem one_thread_in_critical_section (w : World) :
  reachable w ->
  (forall i j ci cj,
     clients w !! i = Some ci -> clients w !! j = Some cj ->
     call_holds (pc ci) = true -> call_holds (pc cj) = true -> i = j)
  /\ (forall i ci,
        clients w !! i = Some ci -> call_holds (pc ci) = true ->
        run_holds (run_pc w) = false).
Proof.
  intros Hreach. pose proof (reachable_Inv w Hreach) as HI. split.
  - intros i j ci cj Hi Hj Hci Hcj.
    apply (inv_call_lock _ HI i ci Hi) in Hci.
    apply (inv_call_lock _ HI j cj Hj) in Hcj. congruence.
  - intros i ci Hi Hci. eapply not_serving_when_client_holds; eauto.
Qed.

(** X5: [wait_until_running] returns only once [run] has set [__started]: at the
    step where its loop ends, [__started] is true and [run] is inside
    [wait()] or has finished. *)
Theorem wait_until_running_returns_after_start (w w' : World) (i : nat)
    (cl cl' : Client) :
  reachable w ->
  clients w !! i = Some cl -> pc cl = CBody WaitUntilRunning ->
  step (TClient i) w = Some w' ->
  clients w' !! i = Some cl' -> pc cl' = CRelease ->
  started (thread w) = true
  /\ (run_pc w = RWait \/ run_pc w = RDone).
Proof.
  intros Hreach Hcl Hpc Hs Hcl' Hpc'.
  pose proof (reachable_Inv w Hreach) as HI.
  pose proof (reachable_Inv2 w Hreach) as HJ.
  assert (Hst : started (thread w) = true).
  { cbn in Hs. unfold client_step in Hs. rewrite Hcl in Hs. cbn in Hs.
    rewrite Hpc in Hs. cbn in Hs.
    destruct (started (thread w)) eqn:Hst; [reflexivity|].
    inversion Hs; subst. cbn in Hcl'.
    rewrite list_lookup_insert_eq in Hcl' by (eapply lookup_lt_Some; eauto).
    inversion Hcl'; subst. discriminate. }
  split; [exact Hst|].
  pose proof (inv_past_start _ HJ Hst) as Hpast.
  assert (Hh : run_holds (run_pc w) = false).
  { eapply not_serving_when_client_holds; eauto. rewrite Hpc. reflexivity. }
  destruct (run_pc w); cbn in *; try discriminate; auto.
Qed.

Lemma clients_over_when_free w :
  Inv w -> quiescent w -> lock_of w = None -> started (thread w) = true ->
  Forall client_over (clients w).
Proof.
  intros HI Hq Hfree Hst. apply Forall_lookup. intros i cl Hcl.
  pose proof (Hq (TClient i)) as Hs. cbn in Hs. unfold client_step in Hs.
  rewrite Hcl in Hs. cbn in Hs. unfold lock_of in Hfree.
  pose proof (inv_queue_clients _ HI Hst i) as Hnq. unfold queue_of in Hnq.
  pose proof (proj1 (inv_call_lock _ HI i cl Hcl)) as Hh.
  unfold lock_of in Hh. rewrite Hfree in Hh.
  destruct cl as [p td]. unfold client_over. cbn in *.
  destruct p; cbn in *.
  - destruct td as [|c rest]; [auto|].
    unfold cond_acquire in Hs. rewrite Hfree in Hs.
    destruct c; cbn in Hs; try discriminate.
    destruct (run_pc w); discriminate.
  - specialize (Hh eq_refl). discriminate.
  - unfold cond_wake, cond_acquire in Hs.
    rewrite bool_decide_eq_false_2 in Hs by exact Hnq.
    rewrite Hfree in Hs. discriminate.
  - specialize (Hh eq_refl). discriminate.
  - auto.
Qed.

Lemma quiescent_cases (progs : list (list call)) (pending : nat)
    (sch : list tid) (w : World) :
  run_schedule sch (init progs pending) = Some w ->
  quiescent w ->
  run_pc w = RNew
  \/ (run_pc w = RDone /\ serving (thread w) = false
      /\ server (thread w) = false /\ lock_of w = None
      /\ Forall client_over (clients w))
  \/ (run_pc w = RServe /\ incoming w = 0%nat /\ lock_of w = Some TServer)
  \/ (run_pc w = RWait /\ serving (thread w) = true
      /\ requests (thread w) = 0 /\ lock_of w = None
      /\ Forall client_over (clients w)
      /\ Z.of_nat (served w) + granted_later w = sumZ (sumZ call_grant) progs).
Proof.
  intros Hr Hq.
  assert (Hreach : reachable w) by (exists progs, pending, sch; exact Hr).
  pose proof (reachable_Inv w Hreach) as HI.
  pose proof (reachable_Inv2 w Hreach) as HJ.
  destruct (quiescent_lock w Hreach Hq) as [Hfree|(Ho & Hpc & Hin)];
    [|right; right; left; auto].
  assert (Hh : run_holds (run_pc w) = false).
  { destruct (run_holds (run_pc w)) eqn:Hh; [|reflexivity].
    apply (inv_run_lock _ HI) in Hh. congruence. }
  pose proof (Hq TServer) as Hs. cbn in Hs. unfold run_step in Hs.
  unfold lock_of in Hfree.
  apply run_holds_false in Hh as [Hpc|[Hpc|[Hpc|Hpc]]]; rewrite Hpc in Hs.
  - auto.
  - unfold cond_acquire in Hs. rewrite Hfree in Hs. discriminate.
  - right. right. right.
    assert (Hin : TServer ∈ queue_of w).
    { unfold cond_wake, cond_acquire in Hs. unfold queue_of.
      destruct (bool_decide_reflect (TServer ∈ waiters (condition (thread w))))
        as [Hin|Hin]; [exact Hin|].
      rewrite Hfree in Hs. discriminate. }
    assert (Hserving : serving (thread w) = true).
    { destruct (serving (thread w)) eqn:Hsv; [reflexivity|].
      destruct (inv_down _ HI Hsv) as (_ & _ & Hn). contradiction. }
    assert (Hst : started (thread w) = true).
    { destruct (started (thread w)) eqn:Hst; [reflexivity|].
      pose proof (inv_started _ HI Hst) as Hb. rewrite Hpc in Hb. discriminate. }
    split; [exact Hpc|]. split; [exact Hserving|].
    split; [exact (inv_idle _ HJ Hin)|]. split; [exact Hfree|].
    split; [apply clients_over_when_free; assumption|].
    destruct (run_schedule_balance sch _ _ Hr) as [Hb _].
    destruct (init_balance progs pending) as [Hi _].
    assert (Heq : permit_balance w = sumZ (sumZ call_grant) progs)
      by congruence.
    unfold permit_balance, in_decrement in Heq.
    rewrite Hpc in Heq. rewrite bool_decide_eq_false_2 in Heq by discriminate.
    rewrite (inv_idle _ HJ Hin) in Heq. lia.
  - right. left.
    assert (Hst : started (thread w) = true).
    { destruct (started (thread w)) eqn:Hst; [reflexivity|].
      pose proof (inv_started _ HI Hst) as Hb. rewrite Hpc in Hb. discriminate. }
    split; [exact Hpc|].
    split; [apply (inv_left _ HJ); auto|].
    split; [apply (inv_server_gone _ HJ); auto|].
    split; [exact Hfree|].
    apply clients_over_when_free; assumption.
Qed.


(** X7: no wake-up of [wait_until_running] is lost: a thread is left inside
    [wait_until_running] at rest only if the server thread was never
    started, or if [run] is inside [server.handle_request] with no
    connection to accept. *)
Theorem wait_until_running_not_stranded (progs : list (list call))
    (pending : nat) (sch : list tid) (w : World) (i : nat) (cl : Client) :
  run_schedule sch (init progs pending) = Some w ->
  quiescent w ->
  clients w !! i = Some cl ->
  pc cl = CWaiting ->
  run_pc w = RNew \/ (run_pc w = RServe /\ incoming w = 0%nat).
Proof.
  intros Hr Hq Hcl Hpc.
  destruct (quiescent_cases progs pending sch w Hr Hq)
    as [H|[(_ & _ & _ & _ & Hov)|[(H1 & H2 & _)|(_ & _ & _ & _ & Hov & _)]]];
    auto.
  - pose proof (Forall_lookup_1 _ _ _ _ Hov Hcl) as [[Hc _]|Hc]; congruence.
  - pose proof (Forall_lookup_1 _ _ _ _ Hov Hcl) as [[Hc _]|Hc]; congruence.
Qed.

(** ** The flow of a test *)

Lemma requests_left_S k :
  requests_left (S k) = HandleRequest 1 :: Connect :: requests_left k.
Proof. reflexivity. Qed.

Lemma run_step_frame w w' :
  run_step w = Some w' ->
  clients w' = clients w /\ serving (thread w') = serving (thread w)
  /\ run_pc w <> RNew /\ run_pc w' <> RNew.
Proof.
  intros Hs. unfold run_step, cond_wake, cond_acquire in Hs.
  destruct (run_pc w) eqn:Hpc; cbn in *;
    repeat match type of Hs with
    | context [owner ?c] => destruct (owner c) eqn:?; cbn in Hs
    | context [serving ?c] => destruct (serving c) eqn:?; cbn in Hs
    | context [Z.eqb ?a ?b] => destruct (Z.eqb_spec a b); cbn in Hs
    | context [bool_decide ?P] => destruct (bool_decide_reflect P); cbn in Hs
    | context [incoming ?c] => destruct (incoming c) eqn:?; cbn in Hs
    end; try discriminate; inversion Hs; subst; clear Hs; cbn;
    repeat split; congruence.
Qed.

Lemma init_on_track n : on_track n (init [test_run n] 0).
Proof.
  split; [reflexivity|]. eexists. split; [reflexivity|]. left. auto.
Qed.

Lemma client_step_on_track n i w w' :
  on_track n w -> client_step i w = Some w' -> on_track n w'.
Proof.
  intros (Hsv & cl & Hcls & Hshape) Hs. unfold client_step in Hs.
  rewrite Hcls in Hs. destruct i as [|i]; [|discriminate]. cbn in Hs.
  destruct Hshape as [[Hnew Hcl]|[Hrun [k Hk]]].
  - subst cl. cbn in Hs. rewrite Hnew in Hs. inversion Hs; subst; clear Hs.
    split; [exact Hsv|]. cbn. rewrite Hcls. eexists. split; [reflexivity|].
    right. split; [discriminate|]. exists n. left. reflexivity.
  - destruct Hk as [Hk|[Hk|[Hk|[Hk|[Hk|[Hk|[Hk|Hk]]]]]]]; subst cl; cbn in Hs;
      unfold call_body, cond_wake, cond_acquire in Hs; cbn in Hs.
    all: try (destruct k as [|k];
              [discriminate|rewrite requests_left_S in Hs; cbn in Hs]).
    all: case_step Hs; try discriminate; inversion Hs; subst; clear Hs.
    all: (split; [exact Hsv|]); cbn; rewrite ?Hcls; cbn;
         (eexists; split; [reflexivity|]); right; (split; [exact Hrun|]).
    all: unfold driver_at; try rewrite requests_left_S; eauto 12.
Qed.

Lemma run_schedule_on_track n sch : forall w w',
  on_track n w -> run_schedule sch w = Some w' -> on_track n w'.
Proof.
  induction sch as [|t sch IH]; intros w w' Hon Hr; cbn in Hr.
  - congruence.
  - destruct (step t w) as [w1|] eqn:Hs; [|discriminate]. cbn in Hr.
    apply (IH w1 w'); [|exact Hr]. destruct t as [|i]; cbn in Hs.
    + destruct Hon as (Hsv & cl & Hcls & Hshape).
      destruct (run_step_frame w w1 Hs) as (Hc & Hsv' & Hn & Hn').
      split; [congruence|]. exists cl. split; [congruence|].
      right. split; [exact Hn'|].
      destruct Hshape as [[Hnew _]|[_ Hk]]; [contradiction|exact Hk].
    + eapply client_step_on_track; eauto.
Qed.

Lemma sumZ_nil {A : Type} (f : A -> Z) : sumZ f [] = 0.
Proof. reflexivity. Qed.

Lemma requests_left_sums k :
  sumZ call_grant (requests_left k) = Z.of_nat k
  /\ sumZ call_connects (requests_left k) = Z.of_nat k
  /\ Forall call_nonneg (requests_left k).
Proof.
  induction k as [|k (IH1 & IH2 & IH3)]; [repeat split; constructor|].
  rewrite requests_left_S, !sumZ_cons, IH1, IH2. cbn [call_grant call_connects].
  repeat split; try lia. repeat constructor; [cbn; lia|exact IH3].
Qed.

Lemma test_run_sums n :
  sumZ (sumZ call_grant) [test_run n] = Z.of_nat n
  /\ sumZ (sumZ call_connects) [test_run n] = Z.of_nat n
  /\ Forall (Forall call_nonneg) [test_run n].
Proof.
  destruct (requests_left_sums n) as (H1 & H2 & H3).
  unfold test_run. cbn [app]. rewrite !sumZ_cons, !sumZ_nil, H1, H2.
  cbn [call_grant call_connects].
  repeat split; try lia. repeat constructor. exact H3.
Qed.

(** X8: the flow of a test works for any number of requests: after
    [StartWebServer] and [n] requests, each one a [handle_request()]
    followed by its connection, the only states in which no thread can
    move have exactly [n] requests served, the driver through all its calls, and
    [run] idle in [wait()] with no permit left and the lock free. *)
Theorem test_run_serves_every_request (n : nat) (sch : list tid) (w : World) :
  run_schedule sch (init [test_run n] 0) = Some w ->
  quiescent w ->
  served w = n /\ returned 0 w = true /\ run_pc w = RWait
  /\ requests (thread w) = 0 /\ lock_of w = None.
Proof.
  intros Hr Hq.
  pose proof (run_schedule_on_track n sch _ w (init_on_track n) Hr)
    as (Hsv & cl & Hcls & Hshape).
  destruct (test_run_sums n) as (Tg & Tc & Tn).
  destruct (permit_balance_of_run _ _ _ _ Tn Hr) as [Hperm _].
  destruct (connection_balance_of_run _ _ _ _ Hr) as [Hconn _].
  rewrite Tg in Hperm. rewrite Tc in Hconn.
  pose proof (Hq (TClient 0)) as Hstuck. cbn in Hstuck.
  unfold client_step in Hstuck. rewrite Hcls in Hstuck. cbn in Hstuck.
  destruct (quiescent_cases _ _ _ _ Hr Hq)
    as [Hnew|[(_ & Hdown & _)|[(Hserve & Hin & Ho)|
         (Hwait & _ & Hreq & Hfree & Hover & Hall)]]].
  - destruct Hshape as [[_ Hcl]|[Hrun _]]; [|contradiction].
    subst cl. cbn in Hstuck. rewrite Hnew in Hstuck. discriminate.
  - congruence.
  - exfalso.
    assert (HI : Inv w)
      by (eapply run_schedule_Inv; [apply init_Inv|exact Hr]).
    destruct (run_schedule_counter sch _ w (init_Inv _ _)
                (init_grants_nonneg _ 0 Tn) (Z.le_refl 0) Hr) as [_ Hn].
    pose proof (inv_serve _ HI (or_introl Hserve)) as Hne.
    unfold granted_later, in_decrement in Hperm.
    rewrite Hserve in Hperm. rewrite bool_decide_eq_false_2 in Hperm
      by discriminate.
    rewrite Hcls in Hperm, Hconn. rewrite !sumZ_cons in Hperm, Hconn.
    rewrite Hin in Hconn. rewrite !sumZ_nil in Hperm, Hconn.
    destruct Hshape as [[Hnew _]|[_ [k Hk]]]; [congruence|].
    destruct (requests_left_sums k) as (K1 & K2 & _).
    unfold client_grants, client_connects in Hperm, Hconn.
    destruct Hk as [Hk|[Hk|[Hk|[Hk|[Hk|[Hk|[Hk|Hk]]]]]]]; subst cl;
      cbn [pc todo point_grant call_grant] in *;
      rewrite ?sumZ_cons in Hperm, Hconn;
      cbn [call_grant call_connects] in *;
      rewrite ?K1, ?K2 in Hperm, Hconn; try lia; cbn in Hstuck;
      discriminate.
  - pose proof (Forall_lookup_1 _ _ 0%nat cl Hover) as Hcl.
    rewrite Hcls in Hcl. specialize (Hcl eq_refl).
    assert (Hdone : cl = mkClient CReady []).
    { destruct Hcl as [[Hp Ht]|Hp].
      - destruct cl; cbn in *; congruence.
      - destruct Hshape as [[_ Hc]|[_ [k Hk]]]; [subst cl; discriminate|].
        destruct Hk as [Hk|[Hk|[Hk|[Hk|[Hk|[Hk|[Hk|Hk]]]]]]]; subst cl;
          discriminate. }
    subst cl.
    assert (Hg : granted_later w = 0).
    { unfold granted_later. rewrite Hcls. reflexivity. }
    rewrite Hg in Hall. rewrite Tg in Hall.
    split; [lia|]. split; [unfold returned; rewrite Hcls; reflexivity|].
    auto.
Qed.

(** * Properties of RequestHandlerTestBase.CheckResponse *)

Lemma check_headers_passed eh hs : forall found f,
  check_headers eh hs found = Passed f ->
  values_agree eh hs
  /\ forall k, k ∈ f <->
       k ∈ found \/ (k ∈ dom eh /\ exists n v, (n, v) ∈ hs /\ lower n = k).
Proof.
  induction hs as [|[n v] hs IH]; intros found f H; cbn in H.
  - inversion H; subst. split.
    + intros n v ev Hin. inversion Hin.
    + intros k. split; [auto|]. intros [Hk|(_ & n & v & Hin & _)]; [exact Hk|].
      inversion Hin.
  - destruct (eh !! lower n) as [ev|] eqn:He.
    + destruct (decide (ev = v)) as [->|Hne]; [|discriminate].
      destruct (IH _ _ H) as [Hag Hf]. split.
      * intros n' v' ev' Hin He'. apply elem_of_cons in Hin as [Heq|Hin].
        -- inversion Heq; subst. congruence.
        -- eapply Hag; eauto.
      * intros k. rewrite Hf. split.
        -- intros [Hk|(Hd & n' & v' & Hin & Hl)].
           ++ apply elem_of_union in Hk as [Hk|Hk]; [|auto].
              apply elem_of_singleton in Hk. subst k. right. split.
              ** apply elem_of_dom. eauto.
              ** exists n, v. split; [apply elem_of_cons; auto|reflexivity].
           ++ right. split; [exact Hd|]. exists n', v'.
              split; [apply elem_of_cons; auto|exact Hl].
        -- intros [Hk|(Hd & n' & v' & Hin & Hl)].
           ++ left. apply elem_of_union. auto.
           ++ apply elem_of_cons in Hin as [Heq|Hin].
              ** inversion Heq; subst. left. apply elem_of_union. left.
                 apply elem_of_singleton. reflexivity.
              ** right. split; [exact Hd|]. eauto.
    + destruct (IH _ _ H) as [Hag Hf]. split.
      * intros n' v' ev' Hin He'. apply elem_of_cons in Hin as [Heq|Hin].
        -- inversion Heq; subst. congruence.
        -- eapply Hag; eauto.
      * intros k. rewrite Hf. split.
        -- intros [Hk|(Hd & n' & v' & Hin & Hl)]; [auto|].
           right. split; [exact Hd|]. exists n', v'.
           split; [apply elem_of_cons; auto|exact Hl].
        -- intros [Hk|(Hd & n' & v' & Hin & Hl)]; [auto|].
           apply elem_of_cons in Hin as [Heq|Hin].
           ++ inversion Heq; subst. apply elem_of_dom in Hd as [x Hx].
              congruence.
           ++ right. split; [exact Hd|]. eauto.
Qed.

Lemma check_headers_agree eh hs : forall found,
  values_agree eh hs -> exists f, check_headers eh hs found = Passed f.
Proof.
  induction hs as [|[n v] hs IH]; intros found Hag; cbn.
  - eauto.
  - assert (Hag' : values_agree eh hs).
    { intros n' v' ev' Hin. apply (Hag n' v' ev'). apply elem_of_cons. auto. }
    destruct (eh !! lower n) as [ev|] eqn:He; [|apply IH; exact Hag'].
    rewrite decide_True; [apply IH; exact Hag'|].
    apply (Hag n v ev); [apply elem_of_cons; auto|exact He].
Qed.

(** [start_response] passes exactly when the status is the expected one,
    every header whose lower-cased name is an expected key carries the
    expected value, and every expected key is the lower-cased name of some
    header of the response. *)
Theorem start_response_passes_iff (expected_status : string)
    (expected_headers : gmap string string) (status : string)
    (headers : list (string * string)) :
  start_response expected_status expected_headers status headers = Passed tt
  <-> expected_status = status
      /\ values_agree expected_headers headers
      /\ forall k, k ∈ dom expected_headers ->
           exists n v, (n, v) ∈ headers /\ lower n = k.
Proof.
  unfold start_response. split.
  - intros H. destruct (decide (expected_status = status)) as [Hs|]; [|discriminate].
    destruct (check_headers expected_headers headers ∅) as [f|] eqn:Hc;
      [|discriminate].
    destruct (decide (dom expected_headers ∖ f = ∅)) as [Hm|]; [|discriminate].
    destruct (check_headers_passed _ _ _ _ Hc) as [Hag Hf].
    split; [exact Hs|]. split; [exact Hag|].
    intros k Hk. assert (Hkf : k ∈ f) by set_solver.
    apply Hf in Hkf as [Hkf|(_ & Hex)]; [set_solver|exact Hex].
  - intros (Hs & Hag & Hall). rewrite decide_True by exact Hs.
    destruct (check_headers_agree expected_headers headers ∅ Hag) as [f Hc].
    rewrite Hc. destruct (check_headers_passed _ _ _ _ Hc) as [_ Hf].
    rewrite decide_True; [reflexivity|].
    apply set_eq. intros k. split; [|set_solver].
    intros Hk. apply elem_of_difference in Hk as [Hd Hn].
    exfalso. apply Hn. apply Hf. right. split; [exact Hd|]. apply Hall, Hd.
Qed.

Lemma lower_char_idempotent (c : ascii) : lower_char (lower_char c) = lower_char c.
Proof.
  destruct c as [[] [] [] [] [] [] [] []]; vm_compute; reflexivity.
Qed.

Lemma lower_idempotent (s : string) : lower (lower s) = lower s.
Proof.
  induction s as [|c s IH]; cbn; [reflexivity|].
  rewrite lower_char_idempotent, IH. reflexivity.
Qed.

Lemma check_headers_app eh hs1 : forall hs2 found,
  check_headers eh (hs1 ++ hs2) found
  = match check_headers eh hs1 found with
    | Passed f => check_headers eh hs2 f
    | Failed e => Failed e
    end.
Proof.
  induction hs1 as [|[n v] hs1 IH]; intros hs2 found; cbn; [reflexivity|].
  destruct (eh !! lower n) as [ev|]; [|apply IH].
  destruct (decide (ev = v)); [apply IH|reflexivity].
Qed.

Lemma check_headers_lower eh hs : forall found,
  check_headers eh (prod_map lower id <$> hs) found = check_headers eh hs found.
Proof.
  induction hs as [|[n v] hs IH]; intros found; cbn; [reflexivity|].
  rewrite lower_idempotent.
  destruct (eh !! lower n) as [ev|]; [|apply IH].
  destruct (decide (ev = v)); [apply IH|reflexivity].
Qed.

Lemma CheckResponse_passes_cases (expected_status : string)
    (expected_headers : gmap string string) (expected_content : string)
    (response : Response) :
  CheckResponse expected_status expected_headers expected_content response
  = Passed tt
  <-> expected_status = resp_status response
      /\ values_agree expected_headers (resp_headers response)
      /\ (forall k, k ∈ dom expected_headers ->
            exists n v, (n, v) ∈ resp_headers response /\ lower n = k)
      /\ expected_content = resp_body response.
Proof.
  unfold CheckResponse, check_content. split.
  - intros H.
    destruct (start_response expected_status expected_headers
                (resp_status response) (resp_headers response))
      as [[]|] eqn:Hs; [|discriminate].
    apply start_response_passes_iff in Hs as (H1 & H2 & H3).
    destruct (decide (expected_content = resp_body response)); [|discriminate].
    auto.
  - intros (H1 & H2 & H3 & H4).
    rewrite (proj2 (start_response_passes_iff _ _ _ _)) by auto.
    rewrite decide_True by exact H4. reflexivity.
Qed.

(** X9: [CheckResponse] passes exactly when the status and the body are the
    expected ones, every header whose lower-cased name is an expected key
    carries the expected value, and every expected key is the lower-cased
    name of a header of the response. *)
Theorem CheckResponse_passes_iff (expected_status : string)
    (expected_headers : gmap string string) (expected_content : string)
    (response : Response) :
  CheckResponse expected_status expected_headers expected_content response
  = Passed tt
  <-> expected_status = resp_status response
      /\ values_agree expected_headers (resp_headers response)
      /\ (forall k, k ∈ dom expected_headers ->
            exists n v, (n, v) ∈ resp_headers response /\ lower n = k)
      /\ expected_content = resp_body response.
Proof. intros; eapply CheckResponse_passes_cases; eassumption. Qed.

(** X10: an expected key that is not written in lower case is never found: the
    names of the response are lower-cased before the lookup, the expected
    keys are not, so the check fails whatever the response is. *)
Theorem CheckResponse_upper_case_key_fails (expected_status : string)
    (expected_headers : gmap string string) (expected_content : string)
    (response : Response) (k : string) :
  k ∈ dom expected_headers ->
  lower k <> k ->
  CheckResponse expected_status expected_headers expected_content response
  <> Passed tt.
Proof.
  intros Hk Hl H. apply CheckResponse_passes_cases in H as (_ & _ & Hall & _).
  destruct (Hall k Hk) as (n & v & _ & Hn). apply Hl.
  rewrite <- Hn. apply lower_idempotent.
Qed.

(** X11: header names are compared without regard to case: the outcome (the
    failure included) is the same for the response with all its header
    names lower-cased. *)
Theorem CheckResponse_ignores_case (expected_status : string)
    (expected_headers : gmap string string) (expected_content : string)
    (status body : string) (headers : list (string * string)) :
  CheckResponse expected_status expected_headers expected_content
    (mkResponse status (prod_map lower id <$> headers) body)
  = CheckResponse expected_status expected_headers expected_content
      (mkResponse status headers body).
Proof.
  unfold CheckResponse, start_response. cbn.
  rewrite check_headers_lower. reflexivity.
Qed.

(** X12: a header of the response whose name is not expected is ignored: taking
    it out changes nothing in the outcome, the failure included. *)
Theorem CheckResponse_ignores_unexpected_header (expected_status : string)
    (expected_headers : gmap string string) (expected_content : string)
    (status body : string) (hs1 hs2 : list (string * string))
    (n v : string) :
  expected_headers !! lower n = None ->
  CheckResponse expected_status expected_headers expected_content
    (mkResponse status (hs1 ++ (n, v) :: hs2) body)
  = CheckResponse expected_status expected_headers expected_content
      (mkResponse status (hs1 ++ hs2) body).
Proof.
  intros Hn. unfold CheckResponse, start_response. cbn.
  rewrite !check_headers_app. cbn. rewrite Hn. reflexivity.
Qed.

Lemma CheckResponse_ignores_unexpected_header_witness :
  CheckResponse "200 OK" {[ "content-type"%string := "text/html"%string ]} "hi"
    (mkResponse "200 OK"
       ([("Content-Type"%string, "text/html"%string)]
          ++ ("X-Extra"%string, "1"%string) :: []) "hi")
  = CheckResponse "200 OK" {[ "content-type"%string := "text/html"%string ]} "hi"
      (mkResponse "200 OK"
         ([("Content-Type"%string, "text/html"%string)] ++ []) "hi").
Proof.
  apply (CheckResponse_ignores_unexpected_header "200 OK"
           {[ "content-type"%string := "text/html"%string ]} "hi" "200 OK" "hi"
           [("Content-Type"%string, "text/html"%string)] [] "X-Extra" "1").
  vm_compute. reflexivity.
Defined.

Lemma CheckResponse_upper_case_key_fails_witness :
  CheckResponse "200 OK" {[ "Content-Type"%string := "text/html"%string ]} "hi"
    (mkResponse "200 OK" [("Content-Type"%string, "text/html"%string)] "hi")
  <> Passed tt.
Proof.
  apply (CheckResponse_upper_case_key_fails "200 OK"
           {[ "Content-Type"%string := "text/html"%string ]} "hi"
           (mkResponse "200 OK" [("Content-Type"%string, "text/html"%string)] "hi")
           "Content-Type").
  - apply elem_of_dom. exists "text/html"%string. vm_compute. reflexivity.
  - vm_compute. discriminate.
Defined.

Example CheckResponse_sample :
  CheckResponse "200 OK" {[ "content-type"%string := "text/html"%string ]} "hi"
    (mkResponse "200 OK"
       [("Content-Type"%string, "text/html"%string);
        ("X-Extra"%string, "1"%string)] "hi")
  = Passed tt.
Proof. vm_compute. reflexivity. Qed.

(** ** The theorems above at concrete runs *)



Lemma lock_free_at_rest_witness :
  reachable driver_stranded /\ quiescent driver_stranded
  /\ (lock_of driver_stranded = None
      \/ (lock_of driver_stranded = Some TServer
          /\ run_pc driver_stranded = RServe
          /\ incoming driver_stranded = 0%nat)).
Proof.
  assert (H1 : reachable driver_stranded).
  { exists [permit_before_start], 0%nat, driver_waits_first.
    vm_compute. reflexivity. }
  assert (H2 : quiescent driver_stranded).
  { apply no_successors_quiescent. vm_compute. reflexivity. }
  split; [exact H1|]. split; [exact H2|].
  exact (lock_free_at_rest driver_stranded H1 H2).
Defined.

Lemma one_thread_in_critical_section_witness :
  reachable driver_checks_started
  /\ run_holds (run_pc driver_checks_started) = false.
Proof.
  assert (H1 : reachable driver_checks_started).
  { exists two_grants, 0%nat, [TClient 0; TServer; TServer; TServer; TClient 0].
    vm_compute. reflexivity. }
  split; [exact H1|].
  apply (proj2 (one_thread_in_critical_section driver_checks_started H1) 0%nat
           (mkClient (CBody WaitUntilRunning) [HandleRequest 1; HandleRequest 1]));
    reflexivity.
Defined.

Lemma wait_until_running_returns_after_start_witness :
  reachable driver_checks_started
  /\ started (thread driver_checks_started) = true
  /\ (run_pc driver_checks_started = RWait
      \/ run_pc driver_checks_started = RDone).
Proof.
  assert (H1 : reachable driver_checks_started).
  { exists two_grants, 0%nat, [TClient 0; TServer; TServer; TServer; TClient 0].
    vm_compute. reflexivity. }
  split; [exact H1|].
  apply (wait_until_running_returns_after_start driver_checks_started
           (mkWorld (mkServerThread true
                       (mkCondition (Some (TClient 0)) [TServer]) true true 0)
              RWait [mkClient CRelease [HandleRequest 1; HandleRequest 1]] 0 0)
           0%nat
           (mkClient (CBody WaitUntilRunning) [HandleRequest 1; HandleRequest 1])
           (mkClient CRelease [HandleRequest 1; HandleRequest 1]) H1);
    reflexivity.
Defined.


Lemma wait_until_running_not_stranded_witness :
  run_schedule driver_waits_first (init [permit_before_start] 0)
  = Some driver_stranded
  /\ quiescent driver_stranded
  /\ (run_pc driver_stranded = RNew
      \/ (run_pc driver_stranded = RServe /\ incoming driver_stranded = 0%nat)).
Proof.
  assert (H1 : run_schedule driver_waits_first (init [permit_before_start] 0)
               = Some driver_stranded) by (vm_compute; reflexivity).
  assert (H2 : quiescent driver_stranded).
  { apply no_successors_quiescent. vm_compute. reflexivity. }
  split; [exact H1|]. split; [exact H2|].
  apply (wait_until_running_not_stranded [permit_before_start] 0
           driver_waits_first driver_stranded 0%nat (mkClient CWaiting [])
           H1 H2); reflexivity.
Defined.

Lemma test_run_serves_every_request_witness :
  run_schedule one_request_schedule (init [test_run 1] 0)
  = Some one_request_done
  /\ quiescent one_request_done
  /\ served one_request_done = 1%nat.
Proof.
  assert (H1 : run_schedule one_request_schedule (init [test_run 1] 0)
               = Some one_request_done) by (vm_compute; reflexivity).
  assert (H2 : quiescent one_request_done).
  { apply no_successors_quiescent. vm_compute. reflexivity. }
  split; [exact H1|]. split; [exact H2|].
  exact (proj1 (test_run_serves_every_request 1 one_request_schedule
                  one_request_done H1 H2)).
Defined.

(** * Properties of EndToEndTestBase.DoRawRequest *)

Lemma heap_alloc_fresh (h : gmap nat (gmap string hvalue)) (d : gmap string hvalue) :
  h !! (heap_alloc h d).2 = None
  /\ (heap_alloc h d).1 !! (heap_alloc h d).2 = Some d
  /\ forall l, is_Some (h !! l) -> (heap_alloc h d).1 !! l = h !! l.
Proof.
  unfold heap_alloc. cbn [fst snd].
  assert (Hf : h !! fresh (dom h) = None).
  { apply (proj1 (not_elem_of_dom h (fresh (dom h)))). apply is_fresh. }
  split; [exact Hf|]. split; [apply lookup_insert_eq|].
  intros l [x Hx]. apply lookup_insert_ne. intros Heq. rewrite Heq in Hf.
  congruence.
Qed.

Lemma length_and_type_lookup content content_type k :
  length_and_type content content_type !! k
  = if decide (k = "content-length"%string) then Some (HInt (content_length content))
    else if decide (k = "content-type"%string) then Some (HStr content_type)
    else None.
Proof.
  unfold length_and_type.
  destruct (decide (k = "content-length"%string)) as [->|H1].
  - apply lookup_insert_eq.
  - rewrite lookup_insert_ne by congruence.
    destruct (decide (k = "content-type"%string)) as [->|H2].
    + apply lookup_insert_eq.
    + rewrite lookup_insert_ne by congruence. apply lookup_empty.
Qed.

Lemma dict_update_lookup content content_type d k :
  dict_update (length_and_type content content_type) d !! k
  = if decide (k = "content-length"%string) then Some (HInt (content_length content))
    else if decide (k = "content-type"%string) then Some (HStr content_type)
    else d !! k.
Proof.
  unfold dict_update. pose proof (length_and_type_lookup content content_type k) as H.
  destruct (decide (k = "content-length"%string));
    [apply lookup_union_Some_l; exact H|].
  destruct (decide (k = "content-type"%string));
    [apply lookup_union_Some_l; exact H|].
  apply lookup_union_r. exact H.
Qed.

Lemma headers_or_new_spec h headers :
  let '(h1, l) := headers_or_new h headers in
  h1 !! l = Some (passed_headers h headers)
  /\ (forall l', is_Some (h !! l') -> h1 !! l' = h !! l')
  /\ (forall l0 d, headers = Some l0 -> h !! l0 = Some d ->
        (d <> ∅ -> l = l0) /\ (d = ∅ -> l <> l0)).
Proof.
  unfold headers_or_new, passed_headers.
  destruct headers as [l0|]; cbn.
  - destruct (h !! l0) as [d|] eqn:Hd; cbn.
    + destruct (decide (d = ∅)) as [->|Hne].
      * destruct (heap_alloc_fresh h ∅) as (F1 & F2 & F3).
        destruct (heap_alloc h ∅) as [h1 l] eqn:Ha. cbn in *.
        split; [exact F2|]. split; [exact F3|].
        intros l1 d1 Heq Hd1. inversion Heq; subst. split; [congruence|].
        intros _ ->. congruence.
      * split; [exact Hd|]. split; [auto|].
        intros l1 d1 Heq Hd1. inversion Heq; subst. split; [auto|congruence].
    + destruct (heap_alloc_fresh h ∅) as (F1 & F2 & F3).
      destruct (heap_alloc h ∅) as [h1 l] eqn:Ha. cbn in *.
      split; [exact F2|]. split; [exact F3|].
      intros l1 d1 Heq Hd1. inversion Heq; subst. congruence.
  - destruct (heap_alloc_fresh h ∅) as (F1 & F2 & F3).
    destruct (heap_alloc h ∅) as [h1 l] eqn:Ha. cbn in *.
    split; [exact F2|]. split; [exact F3|]. discriminate.
Qed.

Lemma DoRawRequest_request_spec service_url method content content_type headers h :
  exists h1 l,
    headers_or_new h headers = (h1, l)
    /\ DoRawRequest_request service_url method content content_type headers h
       = (alter (dict_update (length_and_type content content_type)) l h1,
          mkRawRequest (service_url ++ "." ++ method) content
            (dict_update (length_and_type content content_type)
               (passed_headers h headers))).
Proof.
  pose proof (headers_or_new_spec h headers) as Hs.
  unfold DoRawRequest_request.
  destruct (headers_or_new h headers) as [h1 l]. destruct Hs as (H1 & _).
  exists h1, l. split; [reflexivity|].
  rewrite lookup_alter_eq, H1. reflexivity.
Qed.

(** X13: the headers dictionary that [DoRawRequest] hands to
    [urllib2.Request] always holds [len(content or '')] under the key
    [content-length] and the content type given under the key
    [content-type], whatever the caller put under these two keys; every
    other key, spelled in any other way, holds what the caller put there;
    the URL handed over is the service URL, a dot and the method name. *)
Theorem DoRawRequest_headers_argument (service_url method : string)
    (content : option string) (content_type : string) (headers : option nat)
    (h : gmap nat (gmap string hvalue)) :
  let arguments :=
    (DoRawRequest_request service_url method content content_type headers h).2 in
  req_headers arguments !! "content-length"%string
  = Some (HInt (content_length content))
  /\ req_headers arguments !! "content-type"%string = Some (HStr content_type)
  /\ (forall k, k <> "content-length"%string -> k <> "content-type"%string ->
        req_headers arguments !! k = passed_headers h headers !! k)
  /\ req_url arguments = (service_url ++ "." ++ method)%string.
Proof.
  destruct (DoRawRequest_request_spec service_url method content content_type
              headers h) as (h1 & l & _ & ->).
  cbn. split; [|split; [|split; [|reflexivity]]].
  - rewrite dict_update_lookup. reflexivity.
  - rewrite dict_update_lookup. reflexivity.
  - intros k H1 H2. rewrite dict_update_lookup.
    rewrite !decide_False by assumption. reflexivity.
Qed.

(** A header the caller spelled [Content-Type] stays in the dictionary
    beside the [content-type] that [DoRawRequest] sets. *)
Lemma DoRawRequest_headers_argument_witness :
  let d : gmap string hvalue := {[ "Content-Type"%string := HStr "text/plain" ]} in
  let arguments :=
    (DoRawRequest_request "http://localhost:80/my/service" "method" None
       "application/json" (Some 0%nat) {[ 0%nat := d ]}).2 in
  req_headers arguments !! "Content-Type"%string = Some (HStr "text/plain")
  /\ req_headers arguments !! "content-type"%string
     = Some (HStr "application/json").
Proof.
  cbv zeta.
  destruct (DoRawRequest_headers_argument "http://localhost:80/my/service"
              "method" None "application/json" (Some 0%nat)
              {[ 0%nat := {[ "Content-Type"%string := HStr "text/plain" ]} ]})
    as (_ & Htype & Hother & _).
  split; [|exact Htype].
  rewrite Hother by discriminate.
  unfold passed_headers. cbn [mbind option_bind].
  rewrite lookup_singleton_eq. cbn [default].
  apply lookup_singleton_eq.
Defined.

(** X14: [headers or {}] makes the update visible to the caller or not: a
    non-empty dictionary passed as [headers] is updated in place and ends
    up equal to the headers of the request; an empty one is left empty,
    because a new dictionary is used instead; no other dictionary is
    touched. *)
Theorem DoRawRequest_updates_callers_dict (service_url method : string)
    (content : option string) (content_type : string) (l : nat)
    (d : gmap string hvalue) (h : gmap nat (gmap string hvalue)) :
  h !! l = Some d ->
  let result :=
    DoRawRequest_request service_url method content content_type (Some l) h in
  (d <> ∅ -> result.1 !! l = Some (req_headers result.2))
  /\ (d = ∅ -> result.1 !! l = Some ∅)
  /\ (forall l', l' <> l -> is_Some (h !! l') -> result.1 !! l' = h !! l').
Proof.
  intros Hd.
  pose proof (headers_or_new_spec h (Some l)) as Hs.
  destruct (DoRawRequest_request_spec service_url method content content_type
              (Some l) h) as (h1 & l1 & Hh & ->).
  rewrite Hh in Hs. destruct Hs as (H1 & H2 & H3).
  destruct (H3 l d eq_refl Hd) as [Hne He]. cbn.
  assert (Hp : passed_headers h (Some l) = d).
  { unfold passed_headers. cbn. rewrite Hd. reflexivity. }
  split; [|split].
  - intros Hd'. rewrite (Hne Hd') in *. rewrite lookup_alter_eq, H1.
    reflexivity.
  - intros Hd'. rewrite lookup_alter_ne by (apply He; exact Hd').
    rewrite H2 by eauto. congruence.
  - intros l' Hl' Hsome. rewrite <- (H2 l' Hsome).
    apply lookup_alter_ne. intros ->.
    destruct (decide (d = ∅)) as [Hd'|Hd'].
    + (* a fresh location: not in [h] *)
      unfold headers_or_new in Hh. rewrite Hd in Hh.
      rewrite decide_True in Hh by exact Hd'.
      destruct (heap_alloc_fresh h ∅) as (F1 & _).
      rewrite Hh in F1. cbn in F1. destruct Hsome as [x Hx]. congruence.
    + apply Hl'. apply Hne. exact Hd'.
Qed.

Lemma DoRawRequest_updates_callers_dict_witness :
  let h : gmap nat (gmap string hvalue) :=
    {[ 0%nat := {[ "accept"%string := HStr "text/plain" ]} ]} in
  h !! 0%nat = Some {[ "accept"%string := HStr "text/plain" ]}
  /\ (DoRawRequest_request "http://localhost:80/my/service" "optional_message"
        (Some "{}"%string) "application/json" (Some 0%nat) h).1 !! 0%nat
     = Some (req_headers
               (DoRawRequest_request "http://localhost:80/my/service"
                  "optional_message" (Some "{}"%string) "application/json"
                  (Some 0%nat) h).2).
Proof.
  cbv zeta.
  assert (H1 : ({[ 0%nat := {[ "accept"%string := HStr "text/plain" ]} ]}
                  : gmap nat (gmap string hvalue)) !! 0%nat
               = Some {[ "accept"%string := HStr "text/plain" ]})
    by (vm_compute; reflexivity).
  split; [exact H1|].
  apply (DoRawRequest_updates_callers_dict "http://localhost:80/my/service"
           "optional_message" (Some "{}"%string) "application/json" 0%nat
           {[ "accept"%string := HStr "text/plain" ]} _ H1).
  intros Hempty.
  apply (f_equal (fun m => m !! "accept"%string)) in Hempty.
  vm_compute in Hempty. discriminate.
Defined.

(** * Properties of WebServerTestBase.setUp, TestService.optional_message
      and the locked calls *)

(** X15: [setUp] followed by [tearDown] puts [transport.urlfetch] back: whenever
    [setUp] goes through, [tearDown] goes through as well and leaves the
    value [transport.urlfetch] had before [setUp]; during the test the
    global is [None] exactly when the class does not use urlfetch; and
    [setUp] fails exactly when the class uses urlfetch and there is
    none, leaving the global as it was. *)
Theorem setUp_tearDown_restore_urlfetch {Fetch : Type} (USE_URLFETCH : bool)
    (e : TestEnv Fetch) :
  match setUp_urlfetch USE_URLFETCH e with
  | StepOk during =>
      (urlfetch during = None <-> USE_URLFETCH = false)
      /\ exists after,
           tearDown_urlfetch USE_URLFETCH during = StepOk after
           /\ urlfetch after = urlfetch e
  | StepAssertionError _ e' =>
      USE_URLFETCH = true /\ urlfetch e = None /\ e' = e
  | StepAttributeError _ _ => False
  end.
Proof.
  unfold setUp_urlfetch, tearDown_urlfetch.
  destruct USE_URLFETCH; cbn.
  - destruct (urlfetch e) as [f|] eqn:Hf; [|auto].
    split; [rewrite Hf; split; discriminate|]. exists e. auto.
  - split; [tauto|]. eexists. split; reflexivity.
Qed.

Lemma truthy_Some (v : option string) :
  truthy v = true -> exists s, v = Some s /\ s <> ""%string.
Proof.
  destruct v as [s|]; cbn; [|discriminate].
  destruct (String.eqb_spec s ""); [discriminate|]. eauto.
Qed.

Lemma truthy_false (v : option string) :
  truthy v = false -> v = None \/ v = Some ""%string.
Proof.
  destruct v as [s|]; cbn; [|auto].
  destruct (String.eqb_spec s ""); [subst; auto|discriminate].
Qed.

(** X16: [optional_message] loses nothing: two requests with the same outcome
    are the same request (a value that is [None] or empty comes back as it
    is, any other comes back with "+" in front). *)
Theorem optional_message_injective (self : TestService)
    (r1 r2 : OptionalMessage) :
  optional_message self r1 = optional_message self r2 -> r1 = r2.
Proof.
  destruct r1 as [v1 o1], r2 as [v2 o2]. unfold optional_message. cbn.
  destruct (truthy v1) eqn:T1, (truthy v2) eqn:T2; intros H.
  - apply truthy_Some in T1 as (s1 & -> & _).
    apply truthy_Some in T2 as (s2 & -> & _).
    cbn in H. cbv [plus_format String.append] in H. congruence.
  - apply truthy_Some in T1 as (s1 & -> & _).
    cbn in H. cbv [plus_format String.append] in H.
    apply truthy_false in T2 as [->| ->]; discriminate.
  - apply truthy_Some in T2 as (s2 & -> & _).
    cbn in H. cbv [plus_format String.append] in H.
    apply truthy_false in T1 as [->| ->]; discriminate.
  - congruence.
Qed.

Lemma optional_message_injective_witness :
  optional_message (TestService_init None) (mkOptionalMessage (Some ""%string) [])
  = optional_message (TestService_init None) (mkOptionalMessage (Some ""%string) [])
  /\ mkOptionalMessage (Some ""%string) [] = mkOptionalMessage (Some ""%string) [].
Proof.
  split; [reflexivity|].
  apply (optional_message_injective (TestService_init None)). reflexivity.
Defined.

Lemma shutdown_free (t : tid) (st : ServerThread) :
  owner (condition st) = None ->
  shutdown t st
  = Some (mkServerThread (server st)
            (mkCondition None (tail (waiters (condition st))))
            false (started st) (requests st)).
Proof.
  intros Hfree. unfold shutdown, locked, cond_enter.
  rewrite Hfree. reflexivity.
Qed.

(** X17: calls that get the lock one after the other can be made in either
    order: two [handle_request] calls, or a [handle_request] and a
    [shutdown], leave the same state whichever comes first; and two grants
    [n] and [m] leave the fields that one grant [n + m] leaves. *)
Theorem locked_calls_commute (t1 t2 : tid) (n m : Z) (st : ServerThread) :
  owner (condition st) = None ->
  (handle_request t1 n st ≫= handle_request t2 m)
  = (handle_request t2 m st ≫= handle_request t1 n)
  /\ (handle_request t1 n st ≫= shutdown t2)
     = (shutdown t2 st ≫= handle_request t1 n)
  /\ exists st2 st12,
       (handle_request t1 n st ≫= handle_request t2 m) = Some st2
       /\ handle_request t1 (n + m) st = Some st12
       /\ requests st2 = requests st12 /\ serving st2 = serving st12
       /\ started st2 = started st12 /\ server st2 = server st12
       /\ owner (condition st2) = owner (condition st12).
Proof.
  intros Hfree.
  rewrite !(handle_request_free _ _ st Hfree), (shutdown_free _ st Hfree).
  cbn [mbind option_bind].
  rewrite !handle_request_free, !shutdown_free by reflexivity. cbn.
  split.
  { replace (requests st + n + m) with (requests st + m + n) by lia.
    reflexivity. }
  split; [reflexivity|].
  eexists _, _. split; [reflexivity|]. split; [reflexivity|]. cbn.
  repeat split. lia.
Qed.

Lemma locked_calls_commute_witness :
  owner (condition ServerThread_init) = None
  /\ (handle_request (TClient 0) 2 ServerThread_init ≫= shutdown (TClient 1))
     = (shutdown (TClient 1) ServerThread_init ≫= handle_request (TClient 0) 2).
Proof.
  split; [reflexivity|].
  exact (proj1 (proj2 (locked_calls_commute (TClient 0) (TClient 1) 2 0
                         ServerThread_init eq_refl))).
Defined.

(** * Termination: every step lowers [potential] *)

Local Open Scope nat_scope.

Lemma woken_le q t : woken q t <= 2.
Proof. unfold woken. case_bool_decide; lia. Qed.

Lemma woken_same q q' t : (t ∈ q' <-> t ∈ q) -> woken q' t = woken q t.
Proof.
  intros H. unfold woken. repeat case_bool_decide; tauto || reflexivity.
Qed.

Lemma woken_in q t : t ∈ q -> woken q t = 0.
Proof. intros H. unfold woken. rewrite bool_decide_eq_true_2; auto. Qed.

Lemma woken_out q t : t ∉ q -> woken q t = 2.
Proof. intros H. unfold woken. rewrite bool_decide_eq_false_2; auto. Qed.

Lemma clients_potential_insert q cls : forall i j old new,
  cls !! j = Some old ->
  clients_potential q i (<[j := new]> cls) + client_potential q (i + j) old
  = clients_potential q i cls + client_potential q (i + j) new.
Proof.
  induction cls as [|cl cls IH]; intros i j old new Hj; [discriminate|].
  destruct j as [|j].
  - inversion Hj; subst.
    change (<[0 := new]> (old :: cls)) with (new :: cls).
    cbn [clients_potential]. rewrite Nat.add_0_r. lia.
  - change (<[S j := new]> (cl :: cls)) with (cl :: <[j := new]> cls).
    cbn [clients_potential].
    specialize (IH (S i) j old new Hj).
    replace (i + S j) with (S i + j) by lia. lia.
Qed.

Lemma clients_potential_same q q' cls : forall i,
  (forall k cl, cls !! k = Some cl -> pc cl = CWaiting ->
     (TClient (i + k) ∈ q' <-> TClient (i + k) ∈ q)) ->
  clients_potential q' i cls = clients_potential q i cls.
Proof.
  induction cls as [|cl cls IH]; intros i H; [reflexivity|]. cbn.
  rewrite (IH (S i)).
  - f_equal. unfold client_potential. destruct (pc cl) eqn:Hp; try reflexivity.
    f_equal. apply woken_same. specialize (H 0 cl eq_refl Hp).
    rewrite Nat.add_0_r in H. exact H.
  - intros k c Hk Hp. specialize (H (S k) c Hk Hp).
    replace (S i + k) with (i + S k) by lia. exact H.
Qed.

Lemma clients_potential_one q q' j cls : forall i,
  (forall k, k <> j -> (TClient k ∈ q' <-> TClient k ∈ q)) ->
  clients_potential q' i cls <= clients_potential q i cls + 2.
Proof.
  induction cls as [|cl cls IH]; intros i H; [cbn; lia|]. cbn.
  destruct (decide (i = j)) as [->|Hne].
  - assert (Hrest : clients_potential q' (S j) cls = clients_potential q (S j) cls).
    { apply clients_potential_same. intros k c _ _. apply H. lia. }
    rewrite Hrest. unfold client_potential.
    destruct (pc cl); try lia. pose proof (woken_le q' (TClient j)). lia.
  - specialize (IH (S i) H).
    assert (Hhd : client_potential q' i cl = client_potential q i cl).
    { unfold client_potential. destruct (pc cl); try reflexivity.
      f_equal. apply woken_same. apply H. exact Hne. }
    lia.
Qed.

Lemma clients_potential_all q cls : forall i,
  clients_potential [] i cls <= clients_potential q i cls + 2 * length cls.
Proof.
  induction cls as [|cl cls IH]; intros i; [cbn; lia|]. cbn [clients_potential length].
  specialize (IH (S i)). unfold client_potential.
  destruct (pc cl); try lia. pose proof (woken_le [] (TClient i)). lia.
Qed.

Lemma potential_after_notify q n p cls :
  run_potential (tail q) n p + clients_potential (tail q) 0 cls
  <= run_potential q n p + clients_potential q 0 cls + 2.
Proof.
  destruct q as [|t q]; [cbn; lia|]. cbn [tail].
  destruct t as [|j].
  - rewrite (clients_potential_same (TServer :: q) q cls 0).
    + unfold run_potential. destruct p; try lia.
      pose proof (woken_le q TServer). lia.
    + intros k cl _ _. rewrite elem_of_cons. split; [auto|].
      intros [Heq|Hin]; [discriminate|exact Hin].
  - pose proof (clients_potential_one (TClient j :: q) q j cls 0) as Hc.
    assert (Hr : run_potential q n p = run_potential (TClient j :: q) n p).
    { unfold run_potential. destruct p; try reflexivity. f_equal.
      apply woken_same. rewrite elem_of_cons. split; [auto|].
      intros [Heq|Hin]; [discriminate|exact Hin]. }
    rewrite Hr. apply Nat.add_le_mono_l with (p := run_potential (TClient j :: q) n p) in Hc.
    + lia.
    + intros k Hk. rewrite elem_of_cons. split; [auto|].
      intros [Heq|Hin]; [congruence|exact Hin].
Qed.

Lemma elem_of_app_other (q : list tid) (t u : tid) :
  t <> u -> (t ∈ q ++ [u] <-> t ∈ q).
Proof.
  intros Hne. rewrite elem_of_app, list_elem_of_singleton. tauto.
Qed.

Lemma run_step_decreases w w' :
  run_step w = Some w' -> potential w' < potential w.
Proof.
  unfold run_step, potential, queue_of, run_potential.
  destruct w as [st p cls inc srv]. cbn [thread run_pc clients incoming served].
  destruct p; try discriminate.
  - (* RAcquire *)
    unfold cond_acquire. destruct (owner (condition st)); [discriminate|].
    cbn. intros H; inversion H; subst; clear H. cbn. lia.
  - (* RBegin *)
    intros H; inversion H; subst; clear H. cbn.
    pose proof (clients_potential_all (waiters (condition st)) cls 0). lia.
  - (* RLoop *)
    destruct (serving st); [destruct (requests st =? 0)%Z|];
      intros H; inversion H; subst; clear H; cbn; try lia.
    rewrite woken_in by (rewrite elem_of_app, list_elem_of_singleton; auto).
    rewrite (clients_potential_same (waiters (condition st))
               (waiters (condition st) ++ [TServer]) cls 0); [lia|].
    intros k cl _ _. apply elem_of_app_other. discriminate.
  - (* RWait *)
    unfold cond_wake, cond_acquire. case_bool_decide as Hq; [discriminate|].
    destruct (owner (condition st)); [discriminate|].
    cbn. intros H; inversion H; subst; clear H. cbn.
    rewrite woken_out by exact Hq. lia.
  - (* RServe *)
    destruct inc; [discriminate|].
    intros H; inversion H; subst; clear H. cbn. lia.
  - intros H; inversion H; subst; clear H. cbn. lia.
  - intros H; inversion H; subst; clear H. cbn. lia.
  - intros H; inversion H; subst; clear H. cbn. lia.
Qed.

Lemma todo_cost_cons c l : todo_cost (c :: l) = call_cost c + todo_cost l.
Proof. reflexivity. Qed.

Lemma client_step_decreases i w w' :
  client_step i w = Some w' -> potential w' < potential w.
Proof.
  unfold client_step, potential, queue_of, run_potential.
  destruct w as [st p cls inc srv]. cbn [thread run_pc clients incoming served].
  destruct (cls !! i) as [cl|] eqn:Hi; [|discriminate]. cbn [mbind option_bind].
  destruct cl as [cp rest]. cbn [pc todo].
  pose proof (fun q new => clients_potential_insert q cls 0 i _ new Hi) as Hins.
  cbn [Nat.add] in Hins. unfold client_potential at 1 in Hins. cbn [pc todo] in Hins.
  destruct cp as [|c| | |]; try discriminate.
  - (* CReady *)
    destruct rest as [|c rest]; [discriminate|].
    rewrite todo_cost_cons in Hins.
    destruct c as [|n| | |].
    + unfold cond_acquire. destruct (owner (condition st)); [discriminate|].
      cbn. intros H; inversion H; subst; clear H. cbn.
      rewrite ?length_insert.
      specialize (Hins (waiters (condition st)) (mkClient (CBody Shutdown) rest)).
      settle Hins.
    + unfold cond_acquire. destruct (owner (condition st)); [discriminate|].
      cbn. intros H; inversion H; subst; clear H. cbn.
      rewrite ?length_insert.
      specialize (Hins (waiters (condition st)) (mkClient (CBody (HandleRequest n)) rest)).
      settle Hins.
    + unfold cond_acquire. destruct (owner (condition st)); [discriminate|].
      cbn. intros H; inversion H; subst; clear H. cbn.
      rewrite ?length_insert.
      specialize (Hins (waiters (condition st)) (mkClient (CBody WaitUntilRunning) rest)).
      settle Hins.
    + destruct p; intros H; inversion H; subst; clear H; cbn;
        rewrite ?length_insert;
        [specialize (Hins (waiters (condition st)) (mkClient CReady rest))
        |specialize (Hins (waiters (condition st)) (mkClient CFailed rest)) ..];
        settle Hins.
    + intros H; inversion H; subst; clear H. cbn.
      rewrite ?length_insert.
      specialize (Hins (waiters (condition st)) (mkClient CReady rest)).
      settle Hins.
  - (* CBody *)
    unfold call_body. cbn [thread].
    destruct c as [|n| | |]; try discriminate.
    + intros H; inversion H; subst; clear H. cbn.
      rewrite ?length_insert.
      specialize (Hins (tail (waiters (condition st))) (mkClient CRelease rest)).
      unfold client_potential in Hins. cbn [pc todo point_cost call_cost] in Hins.
      pose proof (potential_after_notify (waiters (condition st)) (length cls) p cls) as Hn.
      unfold run_potential in Hn. lia.
    + intros H; inversion H; subst; clear H. cbn.
      rewrite ?length_insert.
      specialize (Hins (tail (waiters (condition st))) (mkClient CRelease rest)).
      unfold client_potential in Hins. cbn [pc todo point_cost call_cost] in Hins.
      pose proof (potential_after_notify (waiters (condition st)) (length cls) p cls) as Hn.
      unfold run_potential in Hn. lia.
    + destruct (started st); intros H; inversion H; subst; clear H; cbn;
        rewrite ?length_insert.
      * specialize (Hins (waiters (condition st)) (mkClient CRelease rest)).
        settle Hins.
      * specialize (Hins (waiters (condition st) ++ [TClient i]) (mkClient CWaiting rest)).
        unfold client_potential in Hins. cbn [pc todo point_cost] in Hins.
        rewrite woken_in in Hins
          by (rewrite elem_of_app, list_elem_of_singleton; auto).
        rewrite (clients_potential_same (waiters (condition st))
                   (waiters (condition st) ++ [TClient i]) cls 0) in Hins.
        -- rewrite (woken_same (waiters (condition st))
                      (waiters (condition st) ++ [TClient i]) TServer)
             by (apply elem_of_app_other; discriminate).
           lia.
        -- intros k c Hk Hp. apply elem_of_app_other. cbn. intros Heq.
           inversion Heq; subst. rewrite Hi in Hk. inversion Hk; subst. discriminate.
  - (* CWaiting *)
    unfold cond_wake, cond_acquire. case_bool_decide as Hq; [discriminate|].
    destruct (owner (condition st)); [discriminate|].
    cbn. intros H; inversion H; subst; clear H. cbn.
    rewrite ?length_insert.
    specialize (Hins (waiters (condition st)) (mkClient (CBody WaitUntilRunning) rest)).
    unfold client_potential in Hins. cbn [pc todo point_cost call_cost] in Hins.
    rewrite woken_out in Hins by exact Hq. lia.
  - (* CRelease *)
    intros H; inversion H; subst; clear H. cbn.
    rewrite ?length_insert.
    specialize (Hins (waiters (condition st)) (mkClient CReady rest)).
    settle Hins.
Qed.

Lemma step_decreases t w w' :
  step t w = Some w' -> potential w' < potential w.
Proof.
  destruct t as [|i]; cbn [step].
  - apply run_step_decreases.
  - apply client_step_decreases.
Qed.

Lemma schedule_length_bounded sch : forall w w',
  run_schedule sch w = Some w' -> length sch + potential w' <= potential w.
Proof.
  induction sch as [|t sch IH]; intros w w' H; cbn in H.
  - inversion H; subst. cbn. lia.
  - destruct (step t w) as [w1|] eqn:Hs; [|discriminate]. cbn in H.
    apply step_decreases in Hs. apply IH in H. cbn [length]. lia.
Qed.

Lemma clients_potential_init q progs : forall i,
  clients_potential q i (mkClient CReady <$> progs) = sum_list (todo_cost <$> progs).
Proof.
  induction progs as [|l progs IH]; intros i; [reflexivity|].
  cbn [fmap list_fmap clients_potential sum_list sum_list_with].
  change (list_fmap _ _ ?f progs) with (f <$> progs).
  rewrite IH. unfold client_potential, id. cbn [pc todo point_cost]. lia.
Qed.

Lemma potential_init progs pending :
  potential (init progs pending) = step_bound progs pending.
Proof.
  unfold potential, init, step_bound, queue_of, run_potential.
  cbn [thread run_pc clients incoming condition waiters ServerThread_init run_cost].
  rewrite clients_potential_init, length_fmap. lia.
Qed.

(** X18: every execution is finite: a schedule accepted from the initial state
    has at most [step_bound progs pending] steps, whatever the
    interleaving.  No thread spins: the loop of [run] blocks in [wait] or
    in [server.handle_request] instead of polling. *)
Theorem executions_are_finite progs pending sch w :
  run_schedule sch (init progs pending) = Some w ->
  length sch <= step_bound progs pending.
Proof.
  intros H. apply schedule_length_bounded in H.
  rewrite potential_init in H. lia.
Qed.

Lemma executions_are_finite_witness :
  exists w,
    run_schedule one_request_schedule (init [test_run 1] 0) = Some w /\
    length one_request_schedule <= step_bound [test_run 1] 0.
Proof.
  eexists. split; [vm_compute; reflexivity|].
  eapply (executions_are_finite [test_run 1] 0 one_request_schedule). vm_compute. reflexivity.
Defined.

